(** * PVSS: a shallow embedding of [pvss.py] and [cpni.py]

    The Python sources implement a publicly verifiable secret sharing
    scheme on top of petlib (big numbers [Bn], elliptic-curve points
    [EcPt]) and hashlib.  Big numbers are modelled as [Z], Python
    exceptions as an error result, the random generator as an explicit
    stream of draws, and the petlib group as a type class. *)

From Stdlib Require Import ZArith List Lia Bool.
From Stdlib.Strings Require Import Byte.
From Stdlib Require Import Zdivisibility Zcong Setoid Morphisms.
From Stdlib.Zmod Require Import ZmodDef ZmodBase.
Import ListNotations.

Local Open Scope Z_scope.

(** ** Python exceptions *)

Inductive exn : Set :=
| AssertionError   (* a failed [assert] *)
| IndexError       (* list index out of range *)
| NoInverse.       (* petlib: [Bn.mod_inverse] found no inverse *)

Inductive result (A : Type) : Type :=
| Ok (a : A)
| Raise (e : exn).

Arguments Ok {A} a.
Arguments Raise {A} e.

Definition bindR {A B} (r : result A) (k : A -> result B) : result B :=
  match r with
  | Ok a => k a
  | Raise e => Raise e
  end.

Definition assertR (b : bool) : result unit :=
  if b then Ok tt else Raise AssertionError.

Declare Scope py_scope.
Delimit Scope py_scope with py.
Notation "x <- e ;; k" := (bindR e (fun x => k))
  (at level 61, e at next level, right associativity) : py_scope.
Notation "e ;;; k" := (bindR e (fun _ => k))
  (at level 61, right associativity) : py_scope.
Local Open Scope py_scope.

Fixpoint mapR {A B} (f : A -> result B) (l : list A) : result (list B) :=
  match l with
  | [] => Ok []
  | a :: r => b <- f a ;; bs <- mapR f r ;; Ok (b :: bs)
  end.

(** ** The random generator

    [p.random()] returns a number in [[0, p)].  The generator is a
    stream of draws; the n-th draw is reduced into the range.  The
    modulus is a group order: what is proved of the draws assumes
    [p > 0]. *)

Definition rng := nat -> Z.

Definition M (A : Type) : Type := rng -> result (A * rng).

Definition retM {A} (a : A) : M A := fun s => Ok (a, s).

Definition bindM {A B} (m : M A) (k : A -> M B) : M B :=
  fun s => match m s with
           | Ok (a, s') => k a s'
           | Raise e => Raise e
           end.

Definition liftM {A} (r : result A) : M A :=
  fun s => match r with
           | Ok a => Ok (a, s)
           | Raise e => Raise e
           end.

Definition random (p : Z) : M Z :=
  fun s => Ok (s 0%nat mod p, fun i => s (S i)).

Notation "x <~ e ;; k" := (bindM e (fun x => k))
  (at level 61, e at next level, right associativity) : py_scope.
Notation "e ~;; k" := (bindM e (fun _ => k))
  (at level 61, right associativity) : py_scope.

(** [[m for i in range(n)]] for an effectful [m]. *)
Fixpoint replicateM {A} (n : nat) (m : M A) : M (list A) :=
  match n with
  | O => retM []
  | S n' => a <~ m ;; r <~ replicateM n' m ;; retM (a :: r)
  end.

(** ** Python lists *)

Definition len {A} (l : list A) : Z := Z.of_nat (length l).

(** [range(a, b)] *)
Definition range (a b : Z) : list Z :=
  map (fun i => a + Z.of_nat i) (seq 0 (Z.to_nat (b - a))).

Definition zip {A B} (l : list A) (l' : list B) : list (A * B) := combine l l'.

(** [l[i]], negative indices counting from the end. *)
Definition getitem {A} (l : list A) (i : Z) : result A :=
  let i' := if i <? 0 then len l + i else i in
  if i' <? 0 then Raise IndexError
  else match nth_error l (Z.to_nat i') with
       | Some a => Ok a
       | None => Raise IndexError
       end.

(** ** petlib big numbers *)

Definition mod_inverse (a m : Z) : result Z :=
  if Z.gcd a m =? 1 then Ok (Z.invmod a m) else Raise NoInverse.

Definition mod_mul (a b m : Z) : Z := (a * b) mod m.

(** [Bn.from_binary]: big-endian bytes to a number. *)
Definition from_binary (bs : list byte) : Z :=
  fold_left (fun acc b => acc * 256 + Z.of_N (Byte.to_N b)) bs 0.

(** ** The external collaborators

    [EcGroup] is petlib's group of prime order [order]: addition of
    points, multiplication of a point by a big number, equality, and the
    byte encoding [petlib.pack.encode] of a list whose items are points
    or lists of points.  [Digest] is hashlib's [sha256]. *)

Inductive packable (E : Type) : Type :=
| PPt (e : E)
| PList (l : list E).

Arguments PPt {E} e.
Arguments PList {E} l.

Class EcGroup : Type := {
  EcPt : Type;
  order : Z;
  pt_add : EcPt -> EcPt -> EcPt;
  pt_mul : Z -> EcPt -> EcPt;
  pt_eqb : EcPt -> EcPt -> bool;
  encode : list (packable EcPt) -> list byte;
  order_prime : Z.prime order;
  pt_add_assoc : forall a b c, pt_add a (pt_add b c) = pt_add (pt_add a b) c;
  pt_mul_add : forall x y g, pt_mul (x + y) g = pt_add (pt_mul x g) (pt_mul y g);
  pt_mul_mul : forall x y g, pt_mul (x * y) g = pt_mul x (pt_mul y g);
  pt_mul_1 : forall g, pt_mul 1 g = g;
  pt_mul_order : forall x g, pt_mul (x mod order) g = pt_mul x g;
  pt_eqb_eq : forall a b, pt_eqb a b = true <-> a = b
}.

Class Digest : Type := {
  sha256 : list byte -> list byte;
  sha256_length : forall m, length (sha256 m) = 32%nat
}.

Section PVSS.

Context {Gq : EcGroup} {Hsh : Digest}.

(** ** cpni.py *)

Fixpoint sum_elements (ans : EcPt) (es : list EcPt) : EcPt :=
  match es with
  | [] => ans
  | e :: r => sum_elements (pt_add ans e) r
  end.

Definition __get_X_i (C_list : list EcPt) (i : Z) : result EcPt :=
  let elements := map (fun '(C_j, j) => pt_mul (i ^ j) C_j)
                      (zip C_list (range 0 (len C_list))) in
  ans <- getitem elements 0 ;;
  Ok (sum_elements ans (tl elements)).

Definition get_X_i_list (commitments : list EcPt) (n : Z) : result (list EcPt) :=
  mapR (fun i => __get_X_i commitments i) (range 1 (n + 1)).

Definition single_proof : Type := Z * Z * EcPt * EcPt.

Record proof : Type := {
  c : Z;
  r_list : list Z;
  a_1_list : list EcPt;
  a_2_list : list EcPt
}.

Definition hash (p : Z) (h_1 h_2 a_1 a_2 : packable EcPt) : Z :=
  let bin_hash := sha256 (encode [h_1; h_2; a_1; a_2]) in
  from_binary bin_hash.

Definition __DLEQ_prover_calc_a (g_1 g_2 : EcPt) (w : Z) : EcPt * EcPt :=
  let a_1 := pt_mul w g_1 in
  let a_2 := pt_mul w g_2 in
  (a_1, a_2).

Definition DLEQ_verifyer_calc_a (r c : Z) (g_1 h_1 g_2 h_2 : EcPt) : EcPt * EcPt :=
  let a_1 := pt_add (pt_mul r g_1) (pt_mul c h_1) in
  let a_2 := pt_add (pt_mul r g_2) (pt_mul c h_2) in
  (a_1, a_2).

Definition __DLEQ_calc_r (p w alpha c : Z) : Z := (w - c * alpha) mod p.

Definition __DLEQ_calc_all_r (p : Z) (shares_list w_list : list Z) (c : Z) : list Z :=
  map (fun '(alpha, w) => __DLEQ_calc_r p w alpha c) (zip shares_list w_list).

(** The Python [params] tuple is [(Gq, p, g0, h)]; its first component,
    the group object, is the [EcGroup] instance, so [params] is the
    triple [(p, g0, h)] here. *)
Definition DLEQ_prove (params : Z * EcPt * EcPt) (g_1 g_2 h_1 h_2 : EcPt) (x_i : Z)
  : M single_proof :=
  let '(p, _, _) := params in
  w <~ random p ;;
  let '(a_1, a_2) := __DLEQ_prover_calc_a g_1 g_2 w in
  let c := hash p (PPt h_1) (PPt h_2) (PPt a_1) (PPt a_2) in
  let r := __DLEQ_calc_r p w x_i c in
  retM (c, r, a_1, a_2).

Definition DLEQ_prove_list (p : Z) (g : EcPt) (C_list Y_list y_list : list EcPt)
  (shares_list : list Z) : M proof :=
  let n := len Y_list in
  X_list <~ liftM (get_X_i_list C_list n) ;;
  liftM (assertR (len X_list =? len y_list)) ~;;
  liftM (assertR (len Y_list =? len y_list)) ~;;
  let n := len X_list in
  w_list <~ replicateM (Z.to_nat n) (random p) ;;
  a_1_list <~ liftM (mapR (fun i => w <- getitem w_list i ;; Ok (pt_mul w g))
                          (range 0 n)) ;;
  a_2_list <~ liftM (mapR (fun i => w <- getitem w_list i ;;
                                    y <- getitem y_list i ;;
                                    Ok (pt_mul w y))
                          (range 0 n)) ;;
  let c := hash p (PList X_list) (PList Y_list) (PList a_1_list) (PList a_2_list) in
  let r_list := __DLEQ_calc_all_r p shares_list w_list c in
  retM {| c := c; r_list := r_list; a_1_list := a_1_list; a_2_list := a_2_list |}.

Definition DLEQ_verify (g_1 g_2 h_1 h_2 : EcPt) (proof : single_proof) : bool :=
  let '(c, r, a_1, a_2) := proof in
  let '(a_1_new, a_2_new) := DLEQ_verifyer_calc_a r c g_1 h_1 g_2 h_2 in
  if pt_eqb a_1 a_1_new && pt_eqb a_2 a_2_new then true else false.

Fixpoint DLEQ_verify_list_loop (g : EcPt) (c : Z)
  (l : list (EcPt * (EcPt * (EcPt * (Z * (EcPt * EcPt)))))) : bool :=
  match l with
  | [] => true
  | (g_2, (h_1, (h_2, (r_i, (a_1, a_2))))) :: rest =>
      if negb (DLEQ_verify g g_2 h_1 h_2 (c, r_i, a_1, a_2)) then false
      else DLEQ_verify_list_loop g c rest
  end.

Definition DLEQ_verify_list (p : Z) (g : EcPt) (y_list C_list Y_list : list EcPt)
  (proof : proof) : result bool :=
  let r_list := proof.(r_list) in
  let c_claimed := proof.(c) in
  let a_1_orig_list := proof.(a_1_list) in
  let a_2_orig_list := proof.(a_2_list) in
  let n := len r_list in
  X_list <- get_X_i_list C_list n ;;
  let c := hash p (PList X_list) (PList Y_list) (PList a_1_orig_list) (PList a_2_orig_list) in
  if negb (c_claimed =? c) then Ok false
  else Ok (DLEQ_verify_list_loop g c
             (zip y_list (zip X_list (zip Y_list (zip r_list
                (zip a_1_orig_list a_2_orig_list)))))).

Definition DLEQ_verify_single (p : Z) (g_1 g_2 h_1 h_2 : EcPt) (proof : single_proof) : bool :=
  let '(c_claimed, _, a_1, a_2) := proof in
  let c := hash p (PPt h_1) (PPt h_2) (PPt a_1) (PPt a_2) in
  if negb (c =? c_claimed) then false
  else DLEQ_verify g_1 g_2 h_1 h_2 proof.

(** ** pvss.py *)

Definition gen_polynomial (k : Z) (secret : Z) (p : Z) : M (list Z) :=
  px_rand <~ replicateM (Z.to_nat (k - 1)) (random p) ;;
  let px := secret :: px_rand in
  retM px.

(** The loop of [__calc_share].  [% p] is written as [mod p], which is
    petlib's remainder for a modulus [p > 0]; what is proved of the
    shares assumes [p > 0]. *)
Fixpoint __calc_share_loop (l : list (Z * Z)) (x p result : Z) : Z :=
  match l with
  | [] => result
  | (alpha, j) :: r => __calc_share_loop r x p ((result + alpha * x ^ j) mod p)
  end.

Definition __calc_share (px : list Z) (k x p : Z) : result Z :=
  assertR (len px =? k) ;;;
  Ok (__calc_share_loop (zip px (range 0 k)) x p 0).

Definition calc_shares (px : list Z) (k n p : Z) : result (list Z) :=
  mapR (fun i => __calc_share px k i p) (range 1 (n + 1)).

Definition get_commitments (h : EcPt) (px : list Z) : list EcPt :=
  map (fun p_i => pt_mul p_i h) px.

Definition __get_encrypted_shares (pub_keys : list EcPt) (shares : list Z)
  : result (list EcPt) :=
  assertR (len pub_keys =? len shares) ;;;
  mapR (fun '(y_i, i) => s <- getitem shares i ;; Ok (pt_mul s y_i))
       (zip pub_keys (range 0 (len pub_keys))).

Record public : Type := {
  C_list : list EcPt;
  Y_list : list EcPt
}.

Definition gen_proof (params : Z * EcPt * EcPt) (k n : Z) (secret : Z)
  (pub_keys : list EcPt) : M (public * proof) :=
  liftM (assertR (k <? n)) ~;;
  liftM (assertR (len pub_keys =? n)) ~;;
  let '(p, g0, h) := params in
  px <~ gen_polynomial k secret p ;;
  let commitments := get_commitments h px in
  shares_list <~ liftM (calc_shares px k n p) ;;
  enc_shares <~ liftM (__get_encrypted_shares pub_keys shares_list) ;;
  let pub := {| C_list := commitments; Y_list := enc_shares |} in
  proof <~ DLEQ_prove_list p h commitments enc_shares pub_keys shares_list ;;
  liftM (assertR (len px =? k)) ~;;
  liftM (assertR (len commitments =? k)) ~;;
  liftM (assertR (len shares_list =? n)) ~;;
  s0 <~ liftM (getitem shares_list 0) ;;
  liftM (assertR (negb (s0 =? secret))) ~;;
  liftM (assertR (len enc_shares =? n)) ~;;
  retM (pub, proof).

Fixpoint __lagrange_loop (i : Z) (index_list : list Z) (top bottom : Z) : Z * Z :=
  match index_list with
  | [] => (top, bottom)
  | j :: r =>
      if negb (j =? i) then __lagrange_loop i r (top * j) (bottom * (j - i))
      else __lagrange_loop i r top bottom
  end.

Definition __lagrange (i : Z) (index_list : list Z) (p : Z) : result Z :=
  let '(top, bottom) := __lagrange_loop i index_list 1 1 in
  b <- mod_inverse bottom p ;;
  Ok (mod_mul top b p).

Fixpoint decode_loop (l : list (EcPt * Z)) (index_list : list Z) (p : Z) (ans : EcPt)
  : result EcPt :=
  match l with
  | [] => Ok ans
  | (S_i, i) :: r =>
      idx <- getitem index_list i ;;
      co <- __lagrange idx index_list p ;;
      decode_loop r index_list p (pt_add ans (pt_mul co S_i))
  end.

Definition decode (S_list : list EcPt) (index_list : list Z) (p : Z) : result EcPt :=
  assertR (len S_list =? len index_list) ;;;
  i0 <- getitem index_list 0 ;;
  co <- __lagrange i0 index_list p ;;
  S0 <- getitem S_list 0 ;;
  decode_loop (zip (tl S_list) (range 1 (len S_list))) index_list p (pt_mul co S0).

Definition verify_correct_decryption (S_i Y_i : EcPt) (decrypt_proof : single_proof)
  (pub_key : EcPt) (p : Z) (G : EcPt) : bool :=
  DLEQ_verify_single p G S_i pub_key Y_i decrypt_proof.

Fixpoint batch_verify_loop (l : list ((EcPt * single_proof) * (EcPt * EcPt)))
  (p : Z) (G : EcPt) : bool :=
  match l with
  | [] => true
  | ((S_i, decrypt_proof), (Y_i, pub_key)) :: r =>
      if negb (verify_correct_decryption S_i Y_i decrypt_proof pub_key p G) then false
      else batch_verify_loop r p G
  end.

Definition batch_verify_correct_decryption
  (proved_decryptions : list (EcPt * single_proof)) (Y_list pub_keys : list EcPt)
  (p : Z) (G : EcPt) : bool :=
  batch_verify_loop (zip proved_decryptions (zip Y_list pub_keys)) p G.

Definition helper_generate_key_pair (params : Z * EcPt * EcPt) : M (Z * EcPt) :=
  let '(p, g0, g1) := params in
  x_i <~ random p ;;
  let y_i := pt_mul x_i g0 in
  retM (x_i, y_i).

Definition participant_decrypt (params : Z * EcPt * EcPt) (x_i : Z) (Y_i : EcPt)
  : result EcPt :=
  let '(p, _, _) := params in
  inv <- mod_inverse x_i p ;;
  Ok (pt_mul inv Y_i).

Definition participant_decrypt_and_prove (params : Z * EcPt * EcPt) (x_i : Z) (Y_i : EcPt)
  : M (EcPt * single_proof) :=
  let '(p, g0, _) := params in
  S_i <~ liftM (participant_decrypt params x_i Y_i) ;;
  let y_i := pt_mul x_i g0 in
  decrypt_proof <~ DLEQ_prove params g0 S_i y_i Y_i x_i ;;
  retM (S_i, decrypt_proof).

Definition get_pub_key (params : Z * EcPt * EcPt) (x_i : Z) : EcPt :=
  let '(_, g0, G) := params in
  let y_i := pt_mul x_i g0 in
  y_i.

End PVSS.

(** * Reference instances of the external collaborators

    SHA-256 as FIPS 180-4 defines it, for [Digest], and the additive
    group of the integers modulo 13, for [EcGroup]; the theorems below
    are stated for every instance and evaluated on these two. *)

Definition byte_of_Z (z : Z) : byte :=
  match Byte.of_N (Z.to_N z) with
  | Some b => b
  | None => x00
  end.

Module SHA256.

Definition w32 (x : Z) : Z := Z.land x 0xffffffff.
Definition rotr (n x : Z) : Z := Z.lor (Z.shiftr x n) (w32 (Z.shiftl x (32 - n))).
Definition shr (n x : Z) : Z := Z.shiftr x n.
Definition Ch (x y z : Z) : Z := Z.lxor (Z.land x y) (Z.land (Z.lxor x 0xffffffff) z).
Definition Maj (x y z : Z) : Z := Z.lxor (Z.lxor (Z.land x y) (Z.land x z)) (Z.land y z).
Definition Sigma0 x := Z.lxor (Z.lxor (rotr 2 x) (rotr 13 x)) (rotr 22 x).
Definition Sigma1 x := Z.lxor (Z.lxor (rotr 6 x) (rotr 11 x)) (rotr 25 x).
Definition sigma0 x := Z.lxor (Z.lxor (rotr 7 x) (rotr 18 x)) (shr 3 x).
Definition sigma1 x := Z.lxor (Z.lxor (rotr 17 x) (rotr 19 x)) (shr 10 x).

(** The first primes, by trial division. *)
Definition is_prime (n : Z) : bool :=
  (1 <? n) && forallb (fun d => negb (n mod Z.of_nat d =? 0)) (seq 2 (Z.to_nat n - 2)).

Definition primes (count : nat) : list Z :=
  firstn count (filter is_prime (map Z.of_nat (seq 2 400))).

(** The integer cube root, one bit at a time from bit [bits - 1] down. *)
Fixpoint cbrt_bits (bits : nat) (n r : Z) : Z :=
  match bits with
  | O => r
  | S b =>
      let r' := r + 2 ^ Z.of_nat b in
      cbrt_bits b n (if r' * r' * r' <=? n then r' else r)
  end.

(** The first 32 bits of the fractional part of a cube root, of a
    square root. *)
Definition frac_cbrt (n : Z) : Z := w32 (cbrt_bits 40 (n * 2 ^ 96) 0).

Definition frac_sqrt (n : Z) : Z := w32 (Z.sqrt (n * 2 ^ 64)).

(** The round constants: cube roots of the first 64 primes. *)
Definition K : list Z := Eval vm_compute in map frac_cbrt (primes 64).

Definition state : Type := Z * Z * Z * Z * Z * Z * Z * Z.

(** The initial hash value: square roots of the first 8 primes. *)
Definition H0 : state :=
  Eval vm_compute in
    match map frac_sqrt (primes 8) with
    | [a; b; c; d; e; f; g; h] => (a, b, c, d, e, f, g, h)
    | _ => (0, 0, 0, 0, 0, 0, 0, 0)
    end.

(** [n] bytes of [x], most significant first. *)
Definition be_bytes (n : nat) (x : Z) : list Z :=
  map (fun i => Z.land (Z.shiftr x (8 * Z.of_nat (n - 1 - i))) 0xff) (seq 0 n).

(** Padding: the byte 0x80, zeros up to 56 modulo 64, the bit length on
    8 bytes. *)
Definition pad (m : list Z) : list Z :=
  let l := Z.of_nat (length m) in
  let z := Z.to_nat ((55 - l) mod 64) in
  m ++ [0x80] ++ repeat 0 z ++ be_bytes 8 (8 * l).

Definition be_word (bs : list Z) : Z :=
  fold_left (fun acc b => acc * 256 + b) bs 0.

Fixpoint words (fuel : nat) (bs : list Z) : list Z :=
  match fuel with
  | O => []
  | S f =>
      match bs with
      | [] => []
      | _ => be_word (firstn 4 bs) :: words f (skipn 4 bs)
      end
  end.

(** The message schedule, newest word first. *)
Fixpoint schedule (n : nat) (rev_w : list Z) : list Z :=
  match n with
  | O => rev_w
  | S n' =>
      let w := w32 (sigma1 (nth 1 rev_w 0) + nth 6 rev_w 0
                    + sigma0 (nth 14 rev_w 0) + nth 15 rev_w 0) in
      schedule n' (w :: rev_w)
  end.

Definition round (s : state) (kw : Z * Z) : state :=
  let '(a, b, c, d, e, f, g, h) := s in
  let '(k, w) := kw in
  let t1 := h + Sigma1 e + Ch e f g + k + w in
  let t2 := Sigma0 a + Maj a b c in
  (w32 (t1 + t2), a, b, c, w32 (d + t1), e, f, g).

Definition compress (s : state) (block : list Z) : state :=
  let w := rev (schedule 48 (rev block)) in
  let '(a, b, c, d, e, f, g, h) := fold_left round (combine K w) s in
  let '(a0, b0, c0, d0, e0, f0, g0, h0) := s in
  (w32 (a0 + a), w32 (b0 + b), w32 (c0 + c), w32 (d0 + d),
   w32 (e0 + e), w32 (f0 + f), w32 (g0 + g), w32 (h0 + h)).

Fixpoint blocks (fuel : nat) (s : state) (ws : list Z) : state :=
  match fuel with
  | O => s
  | S f =>
      match ws with
      | [] => s
      | _ => blocks f (compress s (firstn 16 ws)) (skipn 16 ws)
      end
  end.

Definition digest (m : list byte) : list byte :=
  let bs := pad (map (fun b => Z.of_N (Byte.to_N b)) m) in
  let ws := words (length bs) bs in
  let '(a, b, c, d, e, f, g, h) := blocks (length ws) H0 ws in
  map byte_of_Z (flat_map (be_bytes 4) [a; b; c; d; e; f; g; h]).

End SHA256.

Module Z13.

Definition q : Z := 13.

Definition pt : Type := Zmod q.

Definition pt_of (z : Z) : pt := Zmod.of_Z q z.

Definition add (a b : pt) : pt := Zmod.add a b.

Definition mul (k : Z) (g : pt) : pt := Zmod.of_Z q (k * Zmod.unsigned g).

Definition eqb (a b : pt) : bool := Zmod.eqb a b.

(** A msgpack-style encoding: an array header, then one byte per point. *)
Definition array_header (n : Z) : list byte :=
  if n <? 16 then [byte_of_Z (0x90 + n)]
  else [xdc; byte_of_Z ((n / 256) mod 256); byte_of_Z (n mod 256)].

Definition encode_pt (g : pt) : list byte := [byte_of_Z (Zmod.unsigned g)].

Definition encode_item (x : packable pt) : list byte :=
  match x with
  | PPt g => encode_pt g
  | PList l => array_header (len l) ++ flat_map encode_pt l
  end.

Definition encode (l : list (packable pt)) : list byte :=
  array_header (len l) ++ flat_map encode_item l.

(** Two generators, a stream of draws and four private keys to run the
    scheme on. *)
Definition G : pt := pt_of 2.

Definition H : pt := pt_of 1.

Definition tape : rng := fun i => Z.of_nat i * 7 + 4.

Definition priv_keys : list Z := [4; 6; 9; 11].

Definition pub_keys : list pt := map (fun x_i => mul x_i G) priv_keys.

End Z13.

(** * Notions the properties are stated with *)

(** The random stream after [n] draws. *)
Fixpoint shift (n : nat) (s : rng) : rng :=
  match n with
  | O => s
  | S n' => shift n' (fun i => s (S i))
  end.

(** The first [n] draws of a stream, each reduced into [[0, p)]. *)
Fixpoint draws (n : nat) (p : Z) (s : rng) : list Z :=
  match n with
  | O => []
  | S n' => s 0%nat mod p :: draws n' p (fun i => s (S i))
  end.

(** Congruence modulo [p]. *)
Definition cong (p a b : Z) : Prop := a mod p = b mod p.

(** The sum of [F i] over the indices [i] of a list. *)
Definition zsum (F : Z -> Z) (l : list Z) : Z :=
  fold_right (fun i acc => F i + acc) 0 l.

(** The two products [__lagrange] accumulates: the [j] other than [i],
    and the differences [j - i]. *)
Fixpoint top_of (i : Z) (l : list Z) : Z :=
  match l with
  | [] => 1
  | j :: r => if negb (j =? i) then j * top_of i r else top_of i r
  end.

Fixpoint bottom_of (i : Z) (l : list Z) : Z :=
  match l with
  | [] => 1
  | j :: r => if negb (j =? i) then (j - i) * bottom_of i r else bottom_of i r
  end.

(** The coefficient as the specification writes it: the product over the
    [j] of the list other than [i] of [j * (j - i)^-1], modulo [p]. *)
Definition lagrange_spec (i : Z) (index_list : list Z) (p : Z) : Z :=
  fold_right (fun j acc => (j * Z.invmod (j - i) p * acc) mod p) (1 mod p)
             (filter (fun j => negb (j =? i)) index_list).

(** The value [__lagrange] returns when the inverse exists. *)
Definition lc (p : Z) (l : list Z) (i : Z) : Z :=
  mod_mul (top_of i l) (Z.invmod (bottom_of i l) p) p.

(** Every index of the list other than [i] differs from [i] modulo [p]. *)
Definition units_at (p : Z) (l : list Z) (i : Z) : Prop :=
  forall j, In j l -> j <> i -> (j - i) mod p <> 0.

(** The indices are pairwise different modulo [p]. *)
Definition distinct_mod (p : Z) (l : list Z) : Prop :=
  NoDup (map (fun i => i mod p) l).

(** A polynomial in Horner form, lowest coefficient first. *)
Fixpoint horner (px : list Z) (x : Z) : Z :=
  match px with
  | [] => 0
  | a :: r => a + x * horner r x
  end.

(** The share of index [x]: the value the loop of [__calc_share]
    computes for a polynomial of the right length. *)
Definition share_at (px : list Z) (p x : Z) : Z :=
  __calc_share_loop (zip px (range 0 (len px))) x p 0.

Section Derived.

Context {Gq : EcGroup} {Hsh : Digest}.

(** One entry of the batch passes [verify_correct_decryption]. *)
Definition decryption_ok (p : Z) (G : EcPt)
  (e : (EcPt * single_proof) * (EcPt * EcPt)) : bool :=
  let '((S_i, decrypt_proof), (Y_i, pub_key)) := e in
  verify_correct_decryption S_i Y_i decrypt_proof pub_key p G.

(** What [DLEQ_prove_list] returns, with the draws made explicit. *)
Definition honest_proof (p : Z) (g : EcPt) (X_list Y_list y_list : list EcPt)
  (shares_list w_list : list Z) : proof :=
  let a_1_list := map (fun w => pt_mul w g) w_list in
  let a_2_list := map (fun '(w, y) => pt_mul w y) (zip w_list y_list) in
  let c := hash p (PList X_list) (PList Y_list) (PList a_1_list) (PList a_2_list) in
  {| c := c;
     r_list := __DLEQ_calc_all_r p shares_list w_list c;
     a_1_list := a_1_list;
     a_2_list := a_2_list |}.

End Derived.

(** * Properties *)

(** ** Lists, ranges and results *)

Lemma len_cons {A} (a : A) (l : list A) : len (a :: l) = len l + 1.
Proof. unfold len. simpl length. lia. Qed.

Lemma len_nonneg {A} (l : list A) : 0 <= len l.
Proof. unfold len. lia. Qed.

Lemma range_nil (a b : Z) : b <= a -> range a b = [].
Proof.
  intros Hle. unfold range.
  replace (Z.to_nat (b - a)) with 0%nat by lia. reflexivity.
Qed.

Lemma range_cons (a b : Z) : a < b -> range a b = a :: range (a + 1) b.
Proof.
  intros Hlt. unfold range.
  replace (Z.to_nat (b - a)) with (S (Z.to_nat (b - (a + 1)))) by lia.
  simpl. f_equal; [lia|].
  rewrite <- seq_shift, map_map.
  apply map_ext. intros i. lia.
Qed.

Lemma range_length (a b : Z) : length (range a b) = Z.to_nat (b - a).
Proof. unfold range. now rewrite length_map, length_seq. Qed.

Lemma range_len_cons {A} (a : Z) (x : A) (l : list A) :
  range a (a + len (x :: l)) = a :: range (a + 1) (a + 1 + len l).
Proof.
  rewrite range_cons by (rewrite len_cons; pose proof (len_nonneg l); lia).
  f_equal. f_equal. rewrite len_cons. lia.
Qed.

Lemma getitem_nth {A} (l : list A) (i : nat) (a : A) :
  nth_error l i = Some a -> getitem l (Z.of_nat i) = Ok a.
Proof.
  intros Hn. unfold getitem.
  destruct (Z.ltb_spec (Z.of_nat i) 0) as [Hneg|_]; [lia|].
  destruct (Z.ltb_spec (Z.of_nat i) 0) as [Hneg|_]; [lia|].
  now rewrite Nat2Z.id, Hn.
Qed.

Lemma getitem_0 {A} (a : A) (l : list A) : getitem (a :: l) 0 = Ok a.
Proof. apply (getitem_nth (a :: l) 0 a). reflexivity. Qed.

Lemma getitem_nil {A} (i : Z) : getitem (@nil A) i = Raise IndexError.
Proof.
  unfold getitem. change (len (@nil A)) with 0.
  destruct (i <? 0) eqn:Hi; simpl.
  - rewrite Hi. reflexivity.
  - rewrite Hi. now destruct (Z.to_nat i).
Qed.

Lemma mapR_map {A B} (f : A -> result B) (g : A -> B) (l : list A) :
  (forall a, In a l -> f a = Ok (g a)) -> mapR f l = Ok (map g l).
Proof.
  induction l as [|a l IH]; intros Hf; simpl; [reflexivity|].
  rewrite (Hf a) by (now left). simpl.
  rewrite IH by (intros; apply Hf; now right). reflexivity.
Qed.

Lemma mapR_length {A B} (f : A -> result B) (l : list A) (r : list B) :
  mapR f l = Ok r -> length r = length l.
Proof.
  revert r. induction l as [|a l IH]; intros r; simpl.
  - intros [= <-]. reflexivity.
  - destruct (f a); simpl; [|discriminate].
    destruct (mapR f l) eqn:E; simpl; [|discriminate].
    intros [= <-]. simpl. f_equal. now apply IH.
Qed.

Lemma in_range (a b i : Z) : In i (range a b) <-> a <= i < b.
Proof.
  unfold range. rewrite in_map_iff. split.
  - intros (j & <- & Hj). apply in_seq in Hj. lia.
  - intros Hi. exists (Z.to_nat (i - a)). split; [lia|]. apply in_seq. lia.
Qed.

Lemma combine_map_l {A B C} (f : A -> C) (l : list A) (l' : list B) :
  combine (map f l) l' = map (fun '(a, b) => (f a, b)) (combine l l').
Proof.
  revert l'. induction l as [|a l IH]; intros [|b l']; simpl; try reflexivity.
  now rewrite IH.
Qed.

Lemma replicateM_random (n : nat) (p : Z) (s : rng) :
  replicateM n (random p) s = Ok (draws n p s, shift n s).
Proof.
  revert s. induction n as [|n IH]; intros s; simpl; [reflexivity|].
  unfold bindM at 1. unfold random at 1.
  unfold bindM. now rewrite IH.
Qed.

Lemma draws_length (n : nat) (p : Z) (s : rng) : length (draws n p s) = n.
Proof. revert s. induction n; intros s; simpl; auto. Qed.

Section PVSS_facts.

Context {Gq : EcGroup} {Hsh : Digest}.

(** ** Scalars act on points modulo the group order *)

Lemma pt_mul_cong (x y : Z) (g : EcPt) :
  x mod order = y mod order -> pt_mul x g = pt_mul y g.
Proof.
  intros Hxy. rewrite <- (pt_mul_order x), <- (pt_mul_order y). now rewrite Hxy.
Qed.

Lemma order_pos : 0 < order.
Proof. pose proof (Z.prime_ge_2 _ order_prime). lia. Qed.

Lemma pt_eqb_refl (a : EcPt) : pt_eqb a a = true.
Proof. now apply pt_eqb_eq. Qed.

(** ** Commitments evaluate to committed shares *)

Lemma sum_elements_calc_share (H : EcPt) (i : Z) (l : list (Z * Z)) (acc acc' : Z) :
  acc mod order = acc' mod order ->
  sum_elements (pt_mul acc H)
    (map (fun '(C_j, j) => pt_mul (i ^ j) C_j)
         (map (fun '(a, j) => (pt_mul a H, j)) l))
  = pt_mul (__calc_share_loop l i order acc') H.
Proof.
  revert acc acc'. induction l as [|[alpha j] l IH]; intros acc acc' Hacc; simpl.
  - now apply pt_mul_cong.
  - rewrite <- pt_mul_mul, <- pt_mul_add. apply IH.
    rewrite Zmod_mod.
    rewrite Z.add_mod, Hacc, <- Z.add_mod by (pose proof order_pos; lia).
    f_equal. ring.
Qed.

Lemma get_X_i_share (H : EcPt) (px : list Z) (i : Z) :
  px <> [] ->
  __get_X_i (get_commitments H px) i
  = Ok (pt_mul (__calc_share_loop (zip px (range 0 (len px))) i order 0) H).
Proof.
  destruct px as [|a0 px]; [congruence|intros _].
  unfold __get_X_i, get_commitments, zip.
  assert (Hlen : len (map (fun p_i => pt_mul p_i H) (a0 :: px)) = len (a0 :: px))
    by (unfold len; now rewrite length_map).
  rewrite Hlen, combine_map_l.
  change (len (a0 :: px)) with (0 + len (a0 :: px)).
  rewrite range_len_cons. simpl combine. simpl map.
  rewrite getitem_0. simpl bindR. simpl tl. f_equal.
  rewrite <- pt_mul_mul.
  rewrite (sum_elements_calc_share H i _ _ ((0 + a0 * i ^ 0) mod order)).
  - reflexivity.
  - rewrite Zmod_mod. f_equal. ring.
Qed.

Lemma calc_share_ok (px : list Z) (k x p : Z) :
  len px = k ->
  __calc_share px k x p = Ok (__calc_share_loop (zip px (range 0 k)) x p 0).
Proof.
  intros Hk. unfold __calc_share. now rewrite (proj2 (Z.eqb_eq _ _) Hk).
Qed.

(** C2: homomorphic evaluation of the commitments of a polynomial at an
    index is the commitment of the share at that index. *)
Theorem commitment_homomorphism (px : list Z) (k i : Z) (H : EcPt) :
  1 <= k -> len px = k ->
  exists share : Z,
    __calc_share px k i order = Ok share /\
    __get_X_i (get_commitments H px) i = Ok (pt_mul share H).
Proof.
  intros Hk Hlen.
  exists (__calc_share_loop (zip px (range 0 k)) i order 0). split.
  - now apply calc_share_ok.
  - rewrite get_X_i_share.
    + now rewrite Hlen.
    + intros ->. unfold len in Hlen. simpl in Hlen. lia.
Qed.

End PVSS_facts.

Section DLEQ_facts.

Context {Gq : EcGroup} {Hsh : Digest}.

(** ** The Chaum-Pedersen equations *)

Lemma dleq_response (w c0 x : Z) (g : EcPt) :
  pt_add (pt_mul (__DLEQ_calc_r order w x c0) g) (pt_mul c0 (pt_mul x g)) = pt_mul w g.
Proof.
  unfold __DLEQ_calc_r.
  rewrite <- pt_mul_mul, <- pt_mul_add.
  apply pt_mul_cong.
  rewrite Zplus_mod_idemp_l. f_equal. ring.
Qed.

Lemma DLEQ_verify_honest (g_1 g_2 h_1 h_2 : EcPt) (w c0 x : Z) :
  h_1 = pt_mul x g_1 -> h_2 = pt_mul x g_2 ->
  DLEQ_verify g_1 g_2 h_1 h_2
    (c0, __DLEQ_calc_r order w x c0, pt_mul w g_1, pt_mul w g_2) = true.
Proof.
  intros -> ->. unfold DLEQ_verify, DLEQ_verifyer_calc_a.
  rewrite !dleq_response, !pt_eqb_refl. reflexivity.
Qed.

Lemma mod_inverse_coprime (a m : Z) :
  Z.gcd a m = 1 -> mod_inverse a m = Ok (Z.invmod a m).
Proof. intros Hg. unfold mod_inverse. now rewrite Hg. Qed.

Lemma decrypt_encrypt (x : Z) (Y : EcPt) :
  Z.gcd x order = 1 -> pt_mul x (pt_mul (Z.invmod x order) Y) = Y.
Proof.
  intros Hg. rewrite <- pt_mul_mul.
  transitivity (pt_mul 1 Y); [|apply pt_mul_1].
  apply pt_mul_cong.
  rewrite Z.mul_comm. now apply Z.invmod_coprime'.
Qed.

(** C4: an honest participant's decrypted share and proof pass
    [verify_correct_decryption] against its own public key. *)
Theorem decryption_completeness (g0 h Y_i : EcPt) (x_i : Z) (s : rng) :
  Z.gcd x_i order = 1 ->
  exists (S_i : EcPt) (decrypt_proof : single_proof) (s' : rng),
    participant_decrypt_and_prove (order, g0, h) x_i Y_i s = Ok ((S_i, decrypt_proof), s') /\
    verify_correct_decryption S_i Y_i decrypt_proof (pt_mul x_i g0) order g0 = true.
Proof.
  intros Hg.
  unfold participant_decrypt_and_prove, participant_decrypt.
  rewrite (mod_inverse_coprime _ _ Hg). simpl bindR.
  unfold bindM, liftM, DLEQ_prove, random, retM, __DLEQ_prover_calc_a.
  set (S_i := pt_mul (Z.invmod x_i order) Y_i).
  set (w := s 0%nat mod order).
  do 3 eexists. split; [reflexivity|].
  unfold verify_correct_decryption, DLEQ_verify_single.
  rewrite Z.eqb_refl. simpl negb. cbv iota.
  apply DLEQ_verify_honest; [reflexivity|].
  unfold S_i. now rewrite decrypt_encrypt.
Qed.

(** ** Batch verification of decryptions *)

Lemma batch_verify_loop_forallb l p G :
  batch_verify_loop l p G = forallb (decryption_ok p G) l.
Proof.
  induction l as [|[[S_i prf] [Y_i pk]] l IH]; simpl; [reflexivity|].
  destruct (verify_correct_decryption S_i Y_i prf pk p G); simpl; auto.
Qed.

(** C9: [batch_verify_correct_decryption] is [False] as soon as one
    zipped entry fails [verify_correct_decryption], and [True] exactly
    when every zipped entry verifies. *)
Theorem batch_verify_fails_closed
  (proved_decryptions : list (EcPt * single_proof)) (Y_list pub_keys : list EcPt)
  (p : Z) (G : EcPt) :
  let entries := zip proved_decryptions (zip Y_list pub_keys) in
  (batch_verify_correct_decryption proved_decryptions Y_list pub_keys p G = false <->
     exists e, In e entries /\ decryption_ok p G e = false) /\
  (batch_verify_correct_decryption proved_decryptions Y_list pub_keys p G = true <->
     forall e, In e entries -> decryption_ok p G e = true).
Proof.
  intros entries. unfold batch_verify_correct_decryption. fold entries.
  rewrite batch_verify_loop_forallb. split.
  - rewrite <- not_true_iff_false, forallb_forall. split.
    + intros Hn. induction entries as [|e l IH].
      * exfalso. apply Hn. intros e [].
      * destruct (decryption_ok p G e) eqn:He.
        -- destruct IH as (e' & Hin & He').
           { intros Hall. apply Hn. intros e' [<-|Hin]; auto. }
           exists e'. split; [now right|assumption].
        -- exists e. split; [now left|assumption].
    + intros (e & Hin & He) Hall. rewrite (Hall e Hin) in He. discriminate.
  - apply forallb_forall.
Qed.

(** ** The challenge hash *)

(** C10: the challenge does not depend on the group order handed to
    [hash]: two calls with the same elements and different orders agree,
    and so do two calls whose elements have the same encoding. *)
Theorem hash_ignores_order (p1 p2 : Z) (h_1 h_2 a_1 a_2 : packable EcPt) :
  hash p1 h_1 h_2 a_1 a_2 = hash p2 h_1 h_2 a_1 a_2 /\
  (forall h_1' h_2' a_1' a_2' : packable EcPt,
     encode [h_1; h_2; a_1; a_2] = encode [h_1'; h_2'; a_1'; a_2'] ->
     hash p1 h_1 h_2 a_1 a_2 = hash p2 h_1' h_2' a_1' a_2').
Proof.
  split.
  - reflexivity.
  - intros h_1' h_2' a_1' a_2' Henc. unfold hash. now rewrite Henc.
Qed.

Lemma from_binary_acc_bound (bs : list byte) (acc : Z) :
  0 <= acc ->
  0 <= fold_left (fun a b => a * 256 + Z.of_N (Byte.to_N b)) bs acc
    < (acc + 1) * 256 ^ len bs.
Proof.
  revert acc. induction bs as [|b bs IH]; intros acc Hacc.
  - simpl. change (len (@nil byte)) with 0. lia.
  - simpl fold_left. rewrite len_cons.
    pose proof (Byte.to_N_bounded b) as Hb.
    pose proof (len_nonneg bs) as Hl.
    rewrite Z.pow_add_r by lia.
    specialize (IH (acc * 256 + Z.of_N (Byte.to_N b)) ltac:(lia)).
    assert (0 < 256 ^ len bs) by (apply Z.pow_pos_nonneg; lia).
    nia.
Qed.

Lemma from_binary_bound (bs : list byte) : 0 <= from_binary bs < 256 ^ len bs.
Proof.
  pose proof (from_binary_acc_bound bs 0 ltac:(lia)) as Hb.
  unfold from_binary. lia.
Qed.

(** C5 (as the code has it): the challenge is the 256-bit digest read as
    a big-endian number; it lies in [[0, 2^256)] whatever the group
    order, and is not reduced modulo it. *)
Theorem hash_range (p : Z) (h_1 h_2 a_1 a_2 : packable EcPt) :
  hash p h_1 h_2 a_1 a_2 = from_binary (sha256 (encode [h_1; h_2; a_1; a_2])) /\
  0 <= hash p h_1 h_2 a_1 a_2 < 2 ^ 256.
Proof.
  split; [reflexivity|].
  unfold hash.
  pose proof (from_binary_bound (sha256 (encode [h_1; h_2; a_1; a_2]))) as Hb.
  unfold len in Hb. rewrite sha256_length in Hb.
  change (256 ^ Z.of_nat 32) with (2 ^ 256) in Hb. exact Hb.
Qed.

End DLEQ_facts.

(** ** Polynomial generation *)

Lemma gen_polynomial_run (k secret p : Z) (s : rng) :
  gen_polynomial k secret p s
  = Ok (secret :: draws (Z.to_nat (k - 1)) p s, shift (Z.to_nat (k - 1)) s).
Proof. unfold gen_polynomial, bindM. now rewrite replicateM_random. Qed.

Lemma gen_polynomial_inv (k secret p : Z) (s s1 : rng) (px : list Z) :
  1 <= k -> gen_polynomial k secret p s = Ok (px, s1) ->
  len px = k /\ exists r, px = secret :: r.
Proof.
  intros Hk. rewrite gen_polynomial_run. intros [= <- _]. split.
  - rewrite len_cons. unfold len. rewrite draws_length. lia.
  - eauto.
Qed.

Lemma draws_range (n : nat) (p : Z) (s : rng) :
  0 < p -> Forall (fun a => 0 <= a < p) (draws n p s).
Proof.
  intros Hp. revert s. induction n as [|n IH]; intros s; simpl; constructor.
  - apply Z.mod_pos_bound. lia.
  - apply IH.
Qed.

Lemma draws_seq (n : nat) (p : Z) (s : rng) :
  draws n p s = map (fun i => s i mod p) (seq 0 n).
Proof.
  revert s. induction n as [|n IH]; intros s; [reflexivity|].
  cbn [draws seq map]. f_equal. rewrite IH, <- seq_shift, map_map. reflexivity.
Qed.

Lemma shift_at (n : nat) (s : rng) (i : nat) : shift n s i = s (n + i)%nat.
Proof.
  revert s. induction n as [|n IH]; intros s; [reflexivity|].
  cbn [shift]. now rewrite IH.
Qed.

(** C6 (as the code has it): for a modulus [p > 0], [gen_polynomial]
    never fails; it takes the next [max (k - 1) 0] draws of the random
    stream, each in [[0, p)], in the order drawn, prepends the secret,
    and leaves the stream after those draws.  The polynomial has length
    [k] when [k >= 1]; when [k < 1] nothing is drawn and the result is
    the one-element list of the secret. *)
Theorem gen_polynomial_shape (k secret p : Z) (s : rng) :
  0 < p ->
  let d := Z.to_nat (k - 1) in
  gen_polynomial k secret p s = Ok (secret :: draws d p s, shift d s) /\
  Z.of_nat d = Z.max (k - 1) 0 /\
  draws d p s = map (fun i => s i mod p) (seq 0 d) /\
  (forall i, shift d s i = s (d + i)%nat) /\
  Forall (fun a => 0 <= a < p) (draws d p s) /\
  (1 <= k -> len (secret :: draws d p s) = k) /\
  (k < 1 -> gen_polynomial k secret p s = Ok ([secret], s)).
Proof.
  intros Hp d.
  split; [apply gen_polynomial_run|]. split; [lia|].
  split; [apply draws_seq|]. split; [apply shift_at|].
  split; [now apply draws_range|]. split.
  - intros Hk. rewrite len_cons. unfold len. rewrite draws_length. lia.
  - intros Hk. rewrite gen_polynomial_run.
    replace (Z.to_nat (k - 1)) with 0%nat by lia. reflexivity.
Qed.

(** C6, counterexample: with threshold 0 the call returns the polynomial
    [[5]] instead of failing. *)
Lemma gen_polynomial_zero_threshold :
  gen_polynomial 0 5 13 (fun _ => 0) = Ok ([5], fun _ => 0) /\
  forall e, gen_polynomial 0 5 13 (fun _ => 0) <> Raise e.
Proof. split; [reflexivity|]. intros e. discriminate. Qed.

(** ** Running the dealer *)

Lemma bindM_ok {A B} (m : M A) (k : A -> M B) (s s' : rng) (a : A) :
  m s = Ok (a, s') -> bindM m k s = k a s'.
Proof. intros Hm. unfold bindM. now rewrite Hm. Qed.

Lemma bindM_lift_ok {A B} (r : result A) (k : A -> M B) (s : rng) (a : A) :
  r = Ok a -> bindM (liftM r) k s = k a s.
Proof. intros ->. reflexivity. Qed.

Lemma bindM_assert_true {B} (b : bool) (k : unit -> M B) (s : rng) :
  b = true -> bindM (liftM (assertR b)) k s = k tt s.
Proof. intros ->. reflexivity. Qed.

Lemma bindM_assert_false {B} (b : bool) (k : unit -> M B) (s : rng) :
  b = false -> bindM (liftM (assertR b)) k s = Raise AssertionError.
Proof. intros ->. reflexivity. Qed.

Lemma nth_error_combine {A B} (l : list A) (l' : list B) (i : nat) (a : A) (b : B) :
  nth_error (combine l l') i = Some (a, b) ->
  nth_error l i = Some a /\ nth_error l' i = Some b.
Proof.
  revert l' i. induction l as [|x l IH]; intros [|y l'] [|i]; simpl; try discriminate.
  - intros [= -> ->]. auto.
  - apply IH.
Qed.

Lemma nth_error_map_some {A B} (f : A -> B) (l : list A) (i : nat) (b : B) :
  nth_error (map f l) i = Some b -> exists a, nth_error l i = Some a /\ f a = b.
Proof.
  rewrite nth_error_map. destruct (nth_error l i) as [a|]; simpl; [|discriminate].
  intros [= <-]. now exists a.
Qed.

Lemma mapR_range_nth {C} (F : Z -> result C) (l : list C) (b n : Z) :
  n = len l ->
  (forall i c, nth_error l i = Some c -> F (b + Z.of_nat i) = Ok c) ->
  mapR F (range b (b + n)) = Ok l.
Proof.
  intros ->. revert b. induction l as [|x l IH]; intros b HF.
  - rewrite range_nil by (change (len (@nil C)) with 0; lia). reflexivity.
  - rewrite range_len_cons. simpl mapR.
    pose proof (HF 0%nat x eq_refl) as H0.
    change (Z.of_nat 0) with 0 in H0. rewrite Z.add_0_r in H0.
    rewrite H0. simpl bindR.
    rewrite IH; [reflexivity|].
    intros i c0 Hi. replace (b + 1 + Z.of_nat i) with (b + Z.of_nat (S i)) by lia.
    now apply HF.
Qed.

Lemma mapR_zip_range_nth {A C} (F : A * Z -> result C) (ys : list A) (l : list C) (b : Z) :
  length l = length ys ->
  (forall i y c, nth_error ys i = Some y -> nth_error l i = Some c ->
                 F (y, b + Z.of_nat i) = Ok c) ->
  mapR F (zip ys (range b (b + len ys))) = Ok l.
Proof.
  revert l b. induction ys as [|y ys IH]; intros [|x l] b Hlen HF; try discriminate.
  - reflexivity.
  - rewrite range_len_cons. unfold zip. simpl combine. simpl mapR.
    pose proof (HF 0%nat y x eq_refl eq_refl) as H0.
    change (Z.of_nat 0) with 0 in H0. rewrite Z.add_0_r in H0.
    rewrite H0. simpl bindR.
    fold (zip ys (range (b + 1) (b + 1 + len ys))).
    rewrite (IH l); [reflexivity|now injection Hlen|].
    intros i y0 c0 Hy Hc. replace (b + 1 + Z.of_nat i) with (b + Z.of_nat (S i)) by lia.
    now apply HF.
Qed.

Section Dealer_facts.

Context {Gq : EcGroup} {Hsh : Digest}.

Lemma calc_share_share_at (px : list Z) (k x p : Z) :
  len px = k -> __calc_share px k x p = Ok (share_at px p x).
Proof. intros Hk. rewrite (calc_share_ok px k x p Hk). now subst k. Qed.

Lemma calc_shares_ok (px : list Z) (k n p : Z) :
  len px = k ->
  calc_shares px k n p = Ok (map (share_at px p) (range 1 (n + 1))).
Proof.
  intros Hk. unfold calc_shares. apply mapR_map.
  intros i _. now apply calc_share_share_at.
Qed.

Lemma get_X_i_list_ok (h : EcPt) (px : list Z) (n : Z) :
  px <> [] ->
  get_X_i_list (get_commitments h px) n
  = Ok (map (fun sh => pt_mul sh h) (map (share_at px order) (range 1 (n + 1)))).
Proof.
  intros Hpx. unfold get_X_i_list. rewrite map_map. apply mapR_map.
  intros i _. now apply get_X_i_share.
Qed.

Lemma get_encrypted_shares_ok (pub_keys : list EcPt) (shares : list Z) :
  length pub_keys = length shares ->
  __get_encrypted_shares pub_keys shares
  = Ok (map (fun '(y, sh) => pt_mul sh y) (zip pub_keys shares)).
Proof.
  intros Hlen. unfold __get_encrypted_shares.
  replace (len pub_keys =? len shares) with true
    by (symmetry; apply Z.eqb_eq; unfold len; now rewrite Hlen).
  simpl bindR. change (range 0 (len pub_keys)) with (range 0 (0 + len pub_keys)).
  apply mapR_zip_range_nth.
  - rewrite length_map. unfold zip. rewrite length_combine. lia.
  - intros i y pt Hy Hpt. simpl Z.add.
    apply nth_error_map_some in Hpt.
    destruct Hpt as ([y' sh] & Hzip & <-).
    apply nth_error_combine in Hzip. destruct Hzip as [Hy' Hs].
    rewrite Hy in Hy'. injection Hy' as <-.
    now rewrite (getitem_nth _ _ _ Hs).
Qed.

Lemma DLEQ_prove_list_run (p : Z) (g : EcPt) (C_list Y_list y_list X_list : list EcPt)
  (shares_list : list Z) (s : rng) :
  get_X_i_list C_list (len Y_list) = Ok X_list ->
  length Y_list = length y_list ->
  let n := length Y_list in
  DLEQ_prove_list p g C_list Y_list y_list shares_list s
  = Ok (honest_proof p g X_list Y_list y_list shares_list (draws n p s), shift n s).
Proof.
  intros HX Hlen n. unfold DLEQ_prove_list.
  assert (HlenX : length X_list = n).
  { apply mapR_length in HX. rewrite HX, range_length. unfold len. fold n. lia. }
  rewrite (bindM_lift_ok _ _ _ _ HX).
  rewrite bindM_assert_true
    by (apply Z.eqb_eq; unfold len; rewrite HlenX; unfold n; now rewrite Hlen).
  rewrite bindM_assert_true by (apply Z.eqb_eq; unfold len; now rewrite Hlen).
  erewrite bindM_ok by apply replicateM_random.
  replace (Z.to_nat (len X_list)) with n by (unfold len; lia).
  set (ws := draws n p s).
  assert (Hws : len X_list = 0 + len ws)
    by (unfold len, ws; rewrite draws_length; lia).
  rewrite Hws.
  erewrite bindM_lift_ok; cycle 1.
  { apply (mapR_range_nth _ (map (fun w => pt_mul w g) ws)).
    { unfold len. now rewrite length_map. }
    intros i pt Hpt. simpl Z.add.
    apply nth_error_map_some in Hpt. destruct Hpt as (w & Hw & <-).
    now rewrite (getitem_nth _ _ _ Hw). }
  erewrite bindM_lift_ok; cycle 1.
  { apply (mapR_range_nth _ (map (fun '(w, y) => pt_mul w y) (zip ws y_list))).
    { unfold len, zip. rewrite length_map, length_combine.
      unfold ws. rewrite draws_length. unfold n. lia. }
    intros i pt Hpt. simpl Z.add.
    apply nth_error_map_some in Hpt. destruct Hpt as ([w y] & Hwy & <-).
    apply nth_error_combine in Hwy. destruct Hwy as [Hw Hy].
    now rewrite (getitem_nth _ _ _ Hw), (getitem_nth _ _ _ Hy). }
  reflexivity.
Qed.

Lemma DLEQ_verify_list_loop_honest (g : EcPt) (c0 : Z) (ys : list EcPt)
  (shares ws : list Z) :
  DLEQ_verify_list_loop g c0
    (zip ys
       (zip (map (fun sh => pt_mul sh g) shares)
          (zip (map (fun '(y, sh) => pt_mul sh y) (zip ys shares))
             (zip (__DLEQ_calc_all_r order shares ws c0)
                (zip (map (fun w => pt_mul w g) ws)
                     (map (fun '(w, y) => pt_mul w y) (zip ws ys)))))))
  = true.
Proof.
  revert shares ws. induction ys as [|y ys IH]; intros [|sh shares] [|w ws];
    try reflexivity.
  unfold __DLEQ_calc_all_r, zip in *.
  cbn [map combine DLEQ_verify_list_loop].
  rewrite DLEQ_verify_honest by reflexivity. cbn [negb].
  apply IH.
Qed.

End Dealer_facts.

Section Dealer_theorems.

Context {Gq : EcGroup} {Hsh : Digest}.

Lemma gen_proof_run (g0 h : EcPt) (k n secret : Z) (pub_keys : list EcPt)
  (s s1 : rng) (px : list Z) :
  1 <= k -> k < n -> len pub_keys = n ->
  gen_polynomial k secret order s = Ok (px, s1) ->
  let shares := map (share_at px order) (range 1 (n + 1)) in
  let enc := map (fun '(y, sh) => pt_mul sh y) (zip pub_keys shares) in
  let X := map (fun sh => pt_mul sh h) shares in
  let prf := honest_proof order h X enc pub_keys shares (draws (length enc) order s1) in
  gen_proof (order, g0, h) k n secret pub_keys s
  = if share_at px order 1 =? secret then Raise AssertionError
    else Ok ({| C_list := get_commitments h px; Y_list := enc |}, prf,
             shift (length enc) s1).
Proof.
  intros Hk Hkn Hpk Hpoly shares enc X prf.
  destruct (gen_polynomial_inv _ _ _ _ _ _ Hk Hpoly) as [Hpx _].
  assert (Hne : px <> []).
  { intros ->. change (len (@nil Z)) with 0 in Hpx. lia. }
  assert (Hshares : length shares = Z.to_nat n).
  { unfold shares. rewrite length_map, range_length. lia. }
  assert (Hpk' : length pub_keys = Z.to_nat n) by (unfold len in Hpk; lia).
  assert (Henc : length enc = Z.to_nat n).
  { unfold enc, zip. rewrite length_map, length_combine. lia. }
  unfold gen_proof.
  rewrite bindM_assert_true by (apply Z.ltb_lt; lia).
  rewrite bindM_assert_true by (now apply Z.eqb_eq).
  rewrite (bindM_ok _ _ _ _ _ Hpoly).
  rewrite (bindM_lift_ok _ _ _ _ (calc_shares_ok px k n order Hpx)).
  fold shares.
  rewrite (bindM_lift_ok _ _ _ _ (get_encrypted_shares_ok pub_keys shares ltac:(lia))).
  fold enc.
  assert (HX : get_X_i_list (get_commitments h px) (len enc) = Ok X).
  { rewrite get_X_i_list_ok by assumption.
    unfold X, shares, len. rewrite Henc, Z2Nat.id by lia. reflexivity. }
  rewrite (bindM_ok _ _ _ _ _
             (DLEQ_prove_list_run order h _ enc pub_keys X shares s1 HX ltac:(lia))).
  fold prf.
  rewrite bindM_assert_true by (now apply Z.eqb_eq).
  rewrite bindM_assert_true
    by (apply Z.eqb_eq; unfold get_commitments, len; now rewrite length_map).
  rewrite bindM_assert_true by (apply Z.eqb_eq; unfold len; rewrite Hshares; lia).
  assert (H0 : getitem shares 0 = Ok (share_at px order 1)).
  { unfold shares. rewrite range_cons by lia. apply getitem_0. }
  rewrite (bindM_lift_ok _ _ _ _ H0).
  destruct (share_at px order 1 =? secret).
  - reflexivity.
  - rewrite bindM_assert_true by reflexivity.
    rewrite bindM_assert_true by (apply Z.eqb_eq; unfold len; rewrite Henc; lia).
    reflexivity.
Qed.

(** C3 (as the code has it): for [1 <= k < n] and [n] public keys the
    dealer returns a bundle whose batch proof verifies, for every stream
    of random draws, provided the first share differs from the secret;
    when the first share equals the secret the dealer's own assertion
    stops it and no bundle is produced. *)
Theorem batch_completeness (g0 h : EcPt) (k n secret : Z) (pub_keys : list EcPt)
  (s s1 : rng) (px : list Z) :
  1 <= k -> k < n -> len pub_keys = n ->
  gen_polynomial k secret order s = Ok (px, s1) ->
  (__calc_share px k 1 order <> Ok secret ->
   exists (pub : public) (prf : proof) (s' : rng),
     gen_proof (order, g0, h) k n secret pub_keys s = Ok (pub, prf, s') /\
     DLEQ_verify_list order h pub_keys pub.(C_list) pub.(Y_list) prf = Ok true) /\
  (__calc_share px k 1 order = Ok secret ->
   gen_proof (order, g0, h) k n secret pub_keys s = Raise AssertionError).
Proof.
  intros Hk Hkn Hpk Hpoly.
  pose proof (gen_proof_run g0 h k n secret pub_keys s s1 px Hk Hkn Hpk Hpoly) as Hrun.
  cbv zeta in Hrun.
  destruct (gen_polynomial_inv _ _ _ _ _ _ Hk Hpoly) as [Hpx _].
  assert (Hne : px <> []).
  { intros ->. change (len (@nil Z)) with 0 in Hpx. lia. }
  rewrite (calc_share_share_at px k 1 order Hpx).
  set (shares := map (share_at px order) (range 1 (n + 1))) in *.
  set (enc := map (fun '(y, sh) => pt_mul sh y) (zip pub_keys shares)) in *.
  set (X := map (fun sh => pt_mul sh h) shares) in *.
  set (ws := draws (length enc) order s1) in *.
  split.
  - intros Hfirst.
    destruct (Z.eqb_spec (share_at px order 1) secret) as [Heq|_];
      [now rewrite Heq in Hfirst|].
    do 3 eexists. split; [exact Hrun|].
    unfold DLEQ_verify_list, honest_proof.
    cbn [c r_list a_1_list a_2_list C_list Y_list].
    assert (Hshares : length shares = Z.to_nat n)
      by (unfold shares; rewrite length_map, range_length; lia).
    assert (Henc : length enc = Z.to_nat n).
    { unfold enc, zip. rewrite length_map, length_combine.
      unfold len in Hpk. lia. }
    assert (Hr : len (__DLEQ_calc_all_r order shares ws
                        (hash order (PList X) (PList enc)
                           (PList (map (fun w => pt_mul w h) ws))
                           (PList (map (fun '(w, y) => pt_mul w y) (zip ws pub_keys)))))
                 = n).
    { unfold __DLEQ_calc_all_r, len, zip. rewrite length_map, length_combine.
      unfold ws. rewrite draws_length. lia. }
    rewrite Hr, get_X_i_list_ok by assumption.
    fold shares. fold X. cbn [bindR].
    rewrite Z.eqb_refl. cbn [negb].
    f_equal. apply DLEQ_verify_list_loop_honest.
  - intros [= Heq]. apply Z.eqb_eq in Heq. now rewrite Heq in Hrun.
Qed.

(** C7: the dealer rejects every [n <= k] with a failed assertion, and a
    bundle is returned only for [n > k] and [len(pub_keys) == n]. *)
Theorem gen_proof_threshold_guard (params : Z * EcPt * EcPt) (k n secret : Z)
  (pub_keys : list EcPt) (s : rng) :
  (n <= k -> gen_proof params k n secret pub_keys s = Raise AssertionError) /\
  (forall out, gen_proof params k n secret pub_keys s = Ok out ->
               n > k /\ len pub_keys = n).
Proof.
  unfold gen_proof. split.
  - intros Hnk. apply bindM_assert_false. apply Z.ltb_ge. lia.
  - intros out.
    destruct (Z.ltb_spec k n) as [Hlt|Hge];
      [|rewrite bindM_assert_false by reflexivity; discriminate].
    rewrite bindM_assert_true by reflexivity.
    destruct (Z.eqb_spec (len pub_keys) n) as [Heq|Hne];
      [|rewrite bindM_assert_false by reflexivity; discriminate].
    intros _. split; [lia|assumption].
Qed.

End Dealer_theorems.

(** ** Congruences modulo the group order *)

#[export] Instance cong_equiv (p : Z) : Equivalence (cong p).
Proof.
  unfold cong. split.
  - intros a. reflexivity.
  - intros a b Hab. now symmetry.
  - intros a b c0 Hab Hbc. now rewrite Hab.
Qed.

#[export] Instance cong_add (p : Z) : Proper (cong p ==> cong p ==> cong p) Z.add.
Proof.
  unfold cong. intros a a' Ha b b' Hb.
  destruct (Z.eq_dec p 0) as [->|Hp]; [rewrite !Z.mod_0_r in *; congruence|].
  now rewrite Z.add_mod, Ha, Hb, <- Z.add_mod.
Qed.

#[export] Instance cong_mul (p : Z) : Proper (cong p ==> cong p ==> cong p) Z.mul.
Proof.
  unfold cong. intros a a' Ha b b' Hb.
  destruct (Z.eq_dec p 0) as [->|Hp]; [rewrite !Z.mod_0_r in *; congruence|].
  now rewrite Z.mul_mod, Ha, Hb, <- Z.mul_mod.
Qed.

#[export] Instance cong_opp (p : Z) : Proper (cong p ==> cong p) Z.opp.
Proof.
  intros a a' Ha.
  replace (- a) with (-1 * a) by ring. replace (- a') with (-1 * a') by ring.
  now rewrite Ha.
Qed.

#[export] Instance cong_sub (p : Z) : Proper (cong p ==> cong p ==> cong p) Z.sub.
Proof.
  intros a a' Ha b b' Hb. unfold Z.sub. now rewrite Ha, Hb.
Qed.

Lemma cong_mod (p a : Z) : cong p (a mod p) a.
Proof. unfold cong. apply Zmod_mod. Qed.

Lemma cong_divide (p a b : Z) : p <> 0 -> (cong p a b <-> (p | a - b)).
Proof.
  intros Hp. unfold cong. rewrite Z.cong_iff_0. now apply Z.mod_divide.
Qed.

Lemma cong_cancel (p c0 x y : Z) :
  Z.prime p -> c0 mod p <> 0 -> cong p (c0 * x) (c0 * y) -> cong p x y.
Proof.
  intros Hp Hc Hxy.
  assert (Hp0 : p <> 0) by (pose proof (Z.prime_ge_2 _ Hp); lia).
  apply cong_divide in Hxy; [|assumption]. apply cong_divide; [assumption|].
  replace (c0 * x - c0 * y) with (c0 * (x - y)) in Hxy by ring.
  apply (Z.divide_prime_mul _ _ _ Hp) in Hxy. destruct Hxy as [Hd|Hd]; [|assumption].
  exfalso. apply Hc. now apply Z.mod_divide.
Qed.

Lemma prime_coprime (p a : Z) : Z.prime p -> a mod p <> 0 -> Z.gcd a p = 1.
Proof.
  intros Hp Ha. rewrite Z.gcd_comm. apply (Z.coprime_prime_l _ _ Hp).
  intros Hd. apply Ha. apply Z.mod_divide; [|assumption].
  pose proof (Z.prime_ge_2 _ Hp). lia.
Qed.

Lemma coprime_prime_nonzero (p a : Z) : Z.prime p -> Z.gcd a p = 1 -> a mod p <> 0.
Proof.
  intros Hp Hg Ha.
  assert (Hp2 := Z.prime_ge_2 _ Hp).
  apply Z.mod_divide in Ha; [|lia].
  assert (Hd : (p | Z.gcd a p)) by (apply Z.gcd_greatest; [assumption|apply Z.divide_refl]).
  rewrite Hg in Hd. apply Z.divide_1_r in Hd. lia.
Qed.

Lemma invmod_cong (p a : Z) : Z.gcd a p = 1 -> cong p (Z.invmod a p * a) 1.
Proof. intros Hg. unfold cong. now apply Z.invmod_coprime'. Qed.

(** ** Sums over index lists *)

Lemma zsum_cong (p : Z) (F F' : Z -> Z) (l : list Z) :
  (forall i, In i l -> cong p (F i) (F' i)) -> cong p (zsum F l) (zsum F' l).
Proof.
  induction l as [|x l IH]; intros HF; simpl; [reflexivity|].
  rewrite (HF x) by (now left). rewrite IH by (intros; apply HF; now right).
  reflexivity.
Qed.

Lemma zsum_ext (F F' : Z -> Z) (l : list Z) :
  (forall i, In i l -> F i = F' i) -> zsum F l = zsum F' l.
Proof.
  induction l as [|x l IH]; intros HF; simpl; [reflexivity|].
  rewrite (HF x) by (now left). rewrite IH by (intros; apply HF; now right).
  reflexivity.
Qed.

Lemma zsum_scale (k : Z) (F : Z -> Z) (l : list Z) :
  zsum (fun i => k * F i) l = k * zsum F l.
Proof. induction l as [|x l IH]; simpl; [ring|]. rewrite IH. ring. Qed.

Lemma zsum_add (F F' : Z -> Z) (l : list Z) :
  zsum (fun i => F i + F' i) l = zsum F l + zsum F' l.
Proof. induction l as [|x l IH]; simpl; [ring|]. rewrite IH. ring. Qed.

Lemma zsum_zero (l : list Z) : zsum (fun _ => 0) l = 0.
Proof. induction l as [|x l IH]; simpl; [reflexivity|]. now rewrite IH. Qed.

Lemma remove_length_NoDup (b : Z) (l : list Z) :
  NoDup l -> In b l -> S (length (remove Z.eq_dec b l)) = length l.
Proof.
  induction l as [|x l IH]; intros Hnd Hin; [destruct Hin|].
  inversion Hnd as [|? ? Hx Hnd']; subst. simpl.
  destruct (Z.eq_dec b x) as [->|Hbx].
  - now rewrite notin_remove.
  - destruct Hin as [->|Hin]; [congruence|]. simpl. f_equal. now apply IH.
Qed.

Lemma zsum_remove (F : Z -> Z) (b : Z) (l : list Z) :
  NoDup l -> In b l -> zsum F l = F b + zsum F (remove Z.eq_dec b l).
Proof.
  induction l as [|x l IH]; intros Hnd Hin; [destruct Hin|].
  inversion Hnd as [|? ? Hx Hnd']; subst. simpl.
  destruct (Z.eq_dec b x) as [->|Hbx].
  - now rewrite notin_remove.
  - destruct Hin as [->|Hin]; [congruence|]. simpl. rewrite IH by assumption. ring.
Qed.

(** ** Lagrange coefficients *)

Lemma lagrange_loop_spec (i : Z) (l : list Z) (top bottom : Z) :
  __lagrange_loop i l top bottom = (top * top_of i l, bottom * bottom_of i l).
Proof.
  revert top bottom. induction l as [|j r IH]; intros top bottom; simpl.
  - f_equal; ring.
  - destruct (negb (j =? i)); rewrite IH; f_equal; ring.
Qed.

Lemma lagrange_unfold (i : Z) (l : list Z) (p : Z) :
  __lagrange i l p
  = (b <- mod_inverse (bottom_of i l) p ;; Ok (mod_mul (top_of i l) b p)).
Proof.
  unfold __lagrange. rewrite lagrange_loop_spec. now rewrite !Z.mul_1_l.
Qed.

Lemma units_at_tail (p : Z) (j : Z) (l : list Z) (i : Z) :
  units_at p (j :: l) i -> units_at p l i.
Proof. intros Hu j' Hin. apply Hu. now right. Qed.

Lemma bottom_nonzero (p : Z) (l : list Z) (i : Z) :
  Z.prime p -> units_at p l i -> bottom_of i l mod p <> 0.
Proof.
  intros Hp. assert (Hp2 := Z.prime_ge_2 _ Hp).
  induction l as [|j r IH]; intros Hu; simpl.
  - rewrite Z.mod_1_l by lia. lia.
  - destruct (Z.eqb_spec j i) as [->|Hji]; simpl.
    + apply IH. eapply units_at_tail; eassumption.
    + intros H0. apply Z.mod_divide in H0; [|lia].
      apply (Z.divide_prime_mul _ _ _ Hp) in H0. destruct H0 as [Hd|Hd].
      * apply (Hu j); [now left|assumption|]. apply Z.mod_divide; [lia|assumption].
      * apply IH; [eapply units_at_tail; eassumption|].
        apply Z.mod_divide; [lia|assumption].
Qed.

Lemma bottom_zero (p : Z) (l : list Z) (i : Z) :
  Z.prime p ->
  (exists j, In j l /\ j <> i /\ (j - i) mod p = 0) -> bottom_of i l mod p = 0.
Proof.
  intros Hp (j & Hin & Hji & H0). assert (Hp2 := Z.prime_ge_2 _ Hp).
  apply Z.mod_divide; [lia|]. apply Z.mod_divide in H0; [|lia].
  induction l as [|x r IH]; [destruct Hin|]. simpl.
  destruct Hin as [->|Hin].
  - destruct (Z.eqb_spec j i) as [|_]; [contradiction|]. simpl.
    now apply Z.divide_mul_l.
  - destruct (negb (x =? i)); [apply Z.divide_mul_r|]; now apply IH.
Qed.

Lemma units_at_dec (p : Z) (l : list Z) (i : Z) :
  units_at p l i \/ exists j, In j l /\ j <> i /\ (j - i) mod p = 0.
Proof.
  induction l as [|x r [IH|(j & Hin & Hji & H0)]].
  - left. intros j [].
  - destruct (Z.eq_dec x i) as [->|Hxi].
    + left. intros j [<-|Hin] Hji; [congruence|now apply IH].
    + destruct (Z.eq_dec ((x - i) mod p) 0) as [H0|H0].
      * right. exists x. split; [now left|auto].
      * left. intros j [<-|Hin] Hji; [assumption|now apply IH].
  - right. exists j. split; [now right|auto].
Qed.

Lemma lagrange_ok (p : Z) (l : list Z) (i : Z) :
  Z.prime p -> units_at p l i -> __lagrange i l p = Ok (lc p l i).
Proof.
  intros Hp Hu. rewrite lagrange_unfold.
  rewrite mod_inverse_coprime; [reflexivity|].
  apply prime_coprime; [assumption|now apply bottom_nonzero].
Qed.

Lemma lagrange_fail (p : Z) (l : list Z) (i : Z) :
  Z.prime p ->
  (exists j, In j l /\ j <> i /\ (j - i) mod p = 0) ->
  __lagrange i l p = Raise NoInverse.
Proof.
  intros Hp Hex. rewrite lagrange_unfold. unfold mod_inverse.
  destruct (Z.eqb_spec (Z.gcd (bottom_of i l) p) 1) as [Hg|_]; [|reflexivity].
  exfalso. apply (coprime_prime_nonzero _ _ Hp Hg). now apply bottom_zero.
Qed.

Lemma lc_bottom (p : Z) (l : list Z) (i : Z) :
  Z.prime p -> units_at p l i -> cong p (lc p l i * bottom_of i l) (top_of i l).
Proof.
  intros Hp Hu. unfold lc, mod_mul. rewrite cong_mod.
  rewrite <- Z.mul_assoc, invmod_cong; [now rewrite Z.mul_1_r|].
  apply prime_coprime; [assumption|now apply bottom_nonzero].
Qed.

Lemma lagrange_spec_bottom (p : Z) (l : list Z) (i : Z) :
  Z.prime p -> units_at p l i ->
  cong p (lagrange_spec i l p * bottom_of i l) (top_of i l).
Proof.
  intros Hp. unfold lagrange_spec.
  induction l as [|j r IH]; intros Hu; simpl.
  - now rewrite cong_mod.
  - destruct (Z.eqb_spec j i) as [->|Hji]; simpl.
    + apply IH. eapply units_at_tail; eassumption.
    + rewrite cong_mod.
      set (sp := fold_right _ _ _) in *.
      replace (j * Z.invmod (j - i) p * sp * ((j - i) * bottom_of i r))
        with (j * (Z.invmod (j - i) p * (j - i)) * (sp * bottom_of i r)) by ring.
      rewrite IH by (eapply units_at_tail; eassumption).
      rewrite invmod_cong; [now rewrite Z.mul_1_r|].
      apply prime_coprime; [assumption|]. apply Hu; [now left|assumption].
Qed.

Lemma lagrange_spec_mod (p : Z) (l : list Z) (i : Z) :
  lagrange_spec i l p mod p = lagrange_spec i l p.
Proof.
  unfold lagrange_spec.
  destruct (filter (fun j => negb (j =? i)) l); simpl; apply Zmod_mod.
Qed.

Lemma lc_spec (p : Z) (l : list Z) (i : Z) :
  Z.prime p -> units_at p l i -> lc p l i = lagrange_spec i l p.
Proof.
  intros Hp Hu.
  assert (Hc : cong p (lc p l i) (lagrange_spec i l p)).
  { apply (cong_cancel p (bottom_of i l)); [assumption|now apply bottom_nonzero|].
    rewrite !(Z.mul_comm (bottom_of i l)).
    now rewrite lc_bottom, lagrange_spec_bottom. }
  unfold cong in Hc. rewrite lagrange_spec_mod in Hc. rewrite <- Hc.
  unfold lc, mod_mul. now rewrite Zmod_mod.
Qed.

(** C8 (as the code has it): for a prime [p], [__lagrange] returns the
    product of the [j * (j - i)^-1] over the listed [j] other than [i]
    whenever each such [j] differs from [i] modulo [p]; it fails, with
    petlib's missing-inverse exception, exactly when some listed [j]
    other than [i] is congruent to [i] modulo [p].  A repeated index is
    no failure: repeats of [i] are skipped, other repeats are multiplied
    in again. *)
Theorem lagrange_coefficient (i : Z) (index_list : list Z) (p : Z) :
  Z.prime p ->
  (units_at p index_list i ->
   __lagrange i index_list p = Ok (lagrange_spec i index_list p)) /\
  ((exists j, In j index_list /\ j <> i /\ (j - i) mod p = 0) ->
   __lagrange i index_list p = Raise NoInverse) /\
  (forall e, __lagrange i index_list p = Raise e ->
             e = NoInverse /\
             exists j, In j index_list /\ j <> i /\ (j - i) mod p = 0).
Proof.
  intros Hp. split; [|split].
  - intros Hu. rewrite lagrange_ok by assumption. f_equal. now apply lc_spec.
  - now apply lagrange_fail.
  - intros e He. destruct (units_at_dec p index_list i) as [Hu|Hex].
    + rewrite lagrange_ok in He by assumption. discriminate.
    + rewrite lagrange_fail in He by assumption. injection He as <-. auto.
Qed.

(** C8, counterexample: an index list with a repeated index does not make
    [__lagrange] fail. *)
Lemma lagrange_duplicate_index :
  __lagrange 1 [1; 2; 2] 7 = Ok 4 /\ __lagrange 1 [1; 1; 2] 7 = Ok 2.
Proof. split; vm_compute; reflexivity. Qed.

(** ** Interpolation at zero *)

Lemma NoDup_map_inj {A B} (f : A -> B) (l : list A) (x y : A) :
  NoDup (map f l) -> In x l -> In y l -> f x = f y -> x = y.
Proof.
  induction l as [|a l IH]; intros Hnd Hx Hy Hf; [destruct Hx|].
  simpl in Hnd. inversion Hnd as [|? ? Ha Hnd']; subst.
  destruct Hx as [->|Hx], Hy as [->|Hy]; auto.
  - exfalso. apply Ha. rewrite Hf. now apply in_map.
  - exfalso. apply Ha. rewrite <- Hf. now apply in_map.
Qed.

Lemma distinct_NoDup (p : Z) (l : list Z) : distinct_mod p l -> NoDup l.
Proof. apply NoDup_map_inv. Qed.

Lemma distinct_units (p : Z) (l : list Z) (i : Z) :
  distinct_mod p l -> In i l -> units_at p l i.
Proof.
  intros Hd Hi j Hj Hji H0. apply Hji.
  apply (NoDup_map_inj (fun i => i mod p) l); auto.
  now apply Z.cong_iff_0.
Qed.

Lemma distinct_remove (p b : Z) (l : list Z) :
  distinct_mod p l -> distinct_mod p (remove Z.eq_dec b l).
Proof.
  unfold distinct_mod. induction l as [|x l IH]; intros Hd; simpl; [constructor|].
  simpl in Hd. inversion Hd as [|? ? Hx Hd']; subst.
  destruct (Z.eq_dec b x) as [_|_]; [now apply IH|].
  simpl. constructor; [|now apply IH].
  intros Hin. apply Hx. apply in_map_iff in Hin. destruct Hin as (y & Hy & Hin).
  apply in_remove in Hin. apply in_map_iff. exists y. tauto.
Qed.

Lemma distinct_small (p n : Z) (l : list Z) :
  n < p -> NoDup l -> (forall i, In i l -> 1 <= i <= n) -> distinct_mod p l.
Proof.
  intros Hn Hnd Hr. unfold distinct_mod.
  rewrite (map_ext_in _ (fun i => i)), map_id; [assumption|].
  intros i Hi. apply Z.mod_small. specialize (Hr i Hi). lia.
Qed.

Lemma top_of_remove (i b : Z) (l : list Z) :
  NoDup l -> In b l -> i <> b ->
  top_of i l = b * top_of i (remove Z.eq_dec b l).
Proof.
  intros Hnd Hin Hib. induction l as [|x l IH]; [destruct Hin|].
  inversion Hnd as [|? ? Hx Hnd']; subst. simpl.
  destruct (Z.eq_dec b x) as [->|Hbx].
  - rewrite notin_remove by assumption.
    destruct (Z.eqb_spec x i) as [->|_]; [congruence|reflexivity].
  - destruct Hin as [->|Hin]; [congruence|]. simpl.
    destruct (negb (x =? i)); rewrite IH by assumption; ring.
Qed.

Lemma bottom_of_remove (i b : Z) (l : list Z) :
  NoDup l -> In b l -> i <> b ->
  bottom_of i l = (b - i) * bottom_of i (remove Z.eq_dec b l).
Proof.
  intros Hnd Hin Hib. induction l as [|x l IH]; [destruct Hin|].
  inversion Hnd as [|? ? Hx Hnd']; subst. simpl.
  destruct (Z.eq_dec b x) as [->|Hbx].
  - rewrite notin_remove by assumption.
    destruct (Z.eqb_spec x i) as [->|_]; [congruence|reflexivity].
  - destruct Hin as [->|Hin]; [congruence|]. simpl.
    destruct (negb (x =? i)); rewrite IH by assumption; ring.
Qed.

Section Interpolation.

Variable p : Z.
Hypothesis p_prime : Z.prime p.

Lemma lc_remove (l : list Z) (i b : Z) :
  distinct_mod p l -> In b l -> In i l -> i <> b ->
  cong p ((i - b) * lc p l i) (- b * lc p (remove Z.eq_dec b l) i).
Proof.
  intros Hd Hb Hi Hib.
  assert (Hnd := distinct_NoDup _ _ Hd).
  assert (Hu := distinct_units _ _ _ Hd Hi).
  assert (Hu' : units_at p (remove Z.eq_dec b l) i).
  { intros j Hj. apply Hu. now apply in_remove in Hj. }
  apply (cong_cancel p (bottom_of i l)); [assumption|now apply bottom_nonzero|].
  replace (bottom_of i l * ((i - b) * lc p l i))
    with ((i - b) * (lc p l i * bottom_of i l)) by ring.
  rewrite lc_bottom by assumption.
  rewrite (bottom_of_remove i b l) by assumption.
  replace ((b - i) * bottom_of i (remove Z.eq_dec b l)
           * (- b * lc p (remove Z.eq_dec b l) i))
    with ((i - b) * b * (lc p (remove Z.eq_dec b l) i
                         * bottom_of i (remove Z.eq_dec b l))) by ring.
  rewrite lc_bottom by assumption.
  rewrite (top_of_remove i b l) by assumption.
  replace ((i - b) * (b * top_of i (remove Z.eq_dec b l)))
    with ((i - b) * b * top_of i (remove Z.eq_dec b l)) by ring.
  reflexivity.
Qed.

(** Interpolating [(x - b) * h(x)] over [l] amounts to interpolating
    [h] over [l] without [b], times [- b]. *)
Lemma interpolate_drop (l : list Z) (b : Z) (h : Z -> Z) :
  distinct_mod p l -> In b l ->
  cong p (zsum (fun i => lc p l i * ((i - b) * h i)) l)
         (- b * zsum (fun i => lc p (remove Z.eq_dec b l) i * h i)
                     (remove Z.eq_dec b l)).
Proof.
  intros Hd Hb. assert (Hnd := distinct_NoDup _ _ Hd).
  rewrite (zsum_remove _ b l) by assumption.
  replace (lc p l b * ((b - b) * h b)) with 0 by ring. rewrite Z.add_0_l.
  rewrite <- zsum_scale. apply zsum_cong.
  intros i Hi. apply in_remove in Hi. destruct Hi as [Hi Hib].
  replace (lc p l i * ((i - b) * h i)) with ((i - b) * lc p l i * h i) by ring.
  rewrite lc_remove by assumption.
  replace (- b * lc p (remove Z.eq_dec b l) i * h i)
    with (- b * (lc p (remove Z.eq_dec b l) i * h i)) by ring.
  reflexivity.
Qed.

(** The coefficients of a non-empty list of distinct indices sum to one. *)
Lemma lc_sum_one (n : nat) (l : list Z) :
  length l = S n -> distinct_mod p l -> cong p (zsum (lc p l) l) 1.
Proof.
  assert (Hp2 := Z.prime_ge_2 _ p_prime).
  revert l. induction n as [|n IH]; intros l Hlen Hd.
  - destruct l as [|a [|b r]]; try discriminate.
    unfold zsum, lc, mod_mul. cbn [fold_right top_of bottom_of].
    rewrite Z.eqb_refl. cbn [negb]. rewrite Z.invmod_1_l.
    rewrite Z.add_0_r, Z.mul_1_l. now rewrite !cong_mod.
  - destruct l as [|a [|b r]]; try discriminate.
    set (l := a :: b :: r) in *.
    assert (Hnd := distinct_NoDup _ _ Hd).
    assert (Ha : In a l) by (now left).
    assert (Hb : In b l) by (right; now left).
    assert (Hab : a <> b).
    { intros ->. inversion Hnd as [|? ? Hx _]; subst. apply Hx. now left. }
    assert (Hunit : (b - a) mod p <> 0).
    { apply (distinct_units _ _ _ Hd Ha b Hb). congruence. }
    apply (cong_cancel p (b - a)); [assumption|assumption|].
    rewrite <- zsum_scale.
    rewrite (zsum_ext _ (fun i => lc p l i * ((i - a) * 1)
                                  + -1 * (lc p l i * ((i - b) * 1))))
      by (intros; ring).
    rewrite zsum_add, zsum_scale.
    rewrite !interpolate_drop by assumption.
    rewrite !(zsum_ext (fun i => lc p (remove Z.eq_dec _ l) i * 1)
                       (lc p (remove Z.eq_dec _ l)))
      by (intros; ring).
    rewrite (IH (remove Z.eq_dec a l)), (IH (remove Z.eq_dec b l)).
    + replace (- a * 1 + -1 * (- b * 1)) with ((b - a) * 1) by ring. reflexivity.
    + pose proof (remove_length_NoDup b l Hnd Hb). lia.
    + now apply distinct_remove.
    + pose proof (remove_length_NoDup a l Hnd Ha). lia.
    + now apply distinct_remove.
Qed.

(** Interpolation through as many distinct points as the polynomial has
    coefficients, or more, recovers its value at zero. *)
Lemma interpolate_zero (px : list Z) (l : list Z) :
  (length px <= length l)%nat -> l <> [] -> distinct_mod p l ->
  cong p (zsum (fun i => lc p l i * horner px i) l) (horner px 0).
Proof.
  revert l. induction px as [|a0 g IH]; intros l Hlen Hne Hd.
  - simpl. rewrite (zsum_ext _ (fun _ => 0)) by (intros; ring).
    now rewrite zsum_zero.
  - destruct l as [|b r] eqn:El; [congruence|]. rewrite <- El in *.
    assert (Hb : In b l) by (rewrite El; now left).
    assert (Hnd := distinct_NoDup _ _ Hd).
    assert (Hl : exists n, length l = S n) by (rewrite El; simpl; eauto).
    destruct Hl as [n Hn].
    cbn [horner]. rewrite Z.mul_0_l, Z.add_0_r.
    rewrite (zsum_ext _ (fun i => a0 * lc p l i
                                  + (lc p l i * ((i - b) * horner g i)
                                     + b * (lc p l i * horner g i))))
      by (intros; ring).
    rewrite zsum_add, zsum_add, !zsum_scale.
    rewrite (lc_sum_one n l Hn Hd).
    rewrite interpolate_drop by assumption.
    rewrite (IH l) by (simpl in Hlen; assumption || lia).
    destruct g as [|a1 g'].
    + simpl. rewrite (zsum_ext _ (fun _ => 0)) by (intros; ring).
      rewrite zsum_zero. replace (a0 * 1 + (- b * 0 + b * 0)) with a0 by ring.
      reflexivity.
    + pose proof (remove_length_NoDup b l Hnd Hb) as Hrm.
      rewrite (IH (remove Z.eq_dec b l)).
      * replace (a0 * 1 + (- b * horner (a1 :: g') 0 + b * horner (a1 :: g') 0))
          with a0 by ring.
        reflexivity.
      * simpl in Hlen |- *. lia.
      * intros E. rewrite E in Hrm. simpl in Hrm, Hlen. lia.
      * now apply distinct_remove.
Qed.

End Interpolation.

(** ** Reconstruction *)

Lemma calc_share_loop_horner (p x : Z) (px : list Z) (j0 acc : Z) :
  0 <= j0 ->
  cong p (__calc_share_loop (zip px (range j0 (j0 + len px))) x p acc)
         (acc + x ^ j0 * horner px x).
Proof.
  revert j0 acc. induction px as [|a r IH]; intros j0 acc Hj.
  - simpl. now rewrite Z.mul_0_r, Z.add_0_r.
  - rewrite range_len_cons. unfold zip. cbn [combine __calc_share_loop horner].
    fold (zip r (range (j0 + 1) (j0 + 1 + len r))).
    rewrite IH by lia. rewrite cong_mod.
    rewrite Z.pow_add_r, Z.pow_1_r by lia.
    replace (acc + a * x ^ j0 + x ^ j0 * x * horner r x)
      with (acc + x ^ j0 * (a + x * horner r x)) by ring.
    reflexivity.
Qed.

Lemma share_at_horner (p x : Z) (px : list Z) :
  cong p (share_at px p x) (horner px x).
Proof.
  unfold share_at. change (len px) with (0 + len px).
  rewrite calc_share_loop_horner by lia.
  now rewrite Z.pow_0_r, Z.mul_1_l, Z.add_0_l.
Qed.

Lemma nth_error_range (a b : Z) (k : nat) :
  Z.of_nat k < b - a -> nth_error (range a b) k = Some (a + Z.of_nat k).
Proof.
  intros Hk. unfold range. rewrite nth_error_map.
  rewrite (nth_error_nth' _ 0%nat) by (rewrite length_seq; lia).
  rewrite seq_nth by lia. reflexivity.
Qed.

Lemma getitem_map_range {A} (F : Z -> A) (n i : Z) :
  1 <= i <= n -> getitem (map F (range 1 (n + 1))) (i - 1) = Ok (F i).
Proof.
  intros Hi. rewrite <- (Z2Nat.id (i - 1)) by lia.
  apply getitem_nth. rewrite nth_error_map.
  rewrite nth_error_range by lia.
  cbn [option_map]. f_equal. f_equal. lia.
Qed.

Section Reconstruction_facts.

Context {Gq : EcGroup}.

Lemma decode_loop_run (f : Z -> EcPt) (idx : list Z) (co : Z -> Z)
  (rest pre : list Z) (ans : EcPt) :
  (forall i, In i rest -> __lagrange i idx order = Ok (co i)) ->
  idx = pre ++ rest ->
  decode_loop (zip (map f rest) (range (len pre) (len pre + len rest))) idx order ans
  = Ok (fold_left (fun acc i => pt_add acc (pt_mul (co i) (f i))) rest ans).
Proof.
  revert pre ans. induction rest as [|i r IH]; intros pre ans Hl Hidx.
  - reflexivity.
  - rewrite range_len_cons. unfold zip. cbn [map combine decode_loop fold_left].
    assert (Hget : getitem idx (len pre) = Ok i).
    { apply getitem_nth. subst idx.
      rewrite nth_error_app2 by lia. now rewrite Nat.sub_diag. }
    rewrite Hget. cbn [bindR]. rewrite (Hl i) by (now left). cbn [bindR].
    assert (Hpre : len pre + 1 = len (pre ++ [i])).
    { unfold len. rewrite length_app. simpl. lia. }
    rewrite Hpre.
    fold (zip (map f r) (range (len (pre ++ [i])) (len (pre ++ [i]) + len r))).
    apply IH.
    + intros j Hj. apply Hl. now right.
    + subst idx. now rewrite <- app_assoc.
Qed.

Lemma fold_shares (G : EcPt) (co v : Z -> Z) (rest : list Z) (a : Z) :
  fold_left (fun acc i => pt_add acc (pt_mul (co i) (pt_mul (v i) G))) rest (pt_mul a G)
  = pt_mul (a + zsum (fun i => co i * v i) rest) G.
Proof.
  revert a. induction rest as [|i r IH]; intros a; simpl.
  - now rewrite Z.add_0_r.
  - rewrite <- pt_mul_mul, <- pt_mul_add, IH. f_equal. ring.
Qed.

Lemma decode_run (G : EcPt) (v : Z -> Z) (idx : list Z) :
  idx <> [] -> distinct_mod order idx ->
  decode (map (fun i => pt_mul (v i) G) idx) idx order
  = Ok (pt_mul (zsum (fun i => lc order idx i * v i) idx) G).
Proof.
  intros Hne Hd.
  assert (Hl : forall i, In i idx -> __lagrange i idx order = Ok (lc order idx i)).
  { intros i Hi. apply lagrange_ok; [apply order_prime|now apply distinct_units]. }
  destruct idx as [|i0 r] eqn:E; [congruence|]. rewrite <- E in *.
  set (f := fun i => pt_mul (v i) G).
  assert (Hg0 : getitem idx 0 = Ok i0) by (rewrite E; apply getitem_0).
  assert (HgS : getitem (map f idx) 0 = Ok (f i0)) by (rewrite E; apply getitem_0).
  assert (Htl : tl (map f idx) = map f r) by (now rewrite E).
  assert (HlenS : len (map f idx) = len [i0] + len r).
  { rewrite E. cbn [map]. rewrite !len_cons. unfold len. rewrite length_map.
    cbn [length]. lia. }
  unfold decode.
  replace (len (map f idx) =? len idx) with true
    by (symmetry; apply Z.eqb_eq; unfold len; now rewrite length_map).
  cbn [bindR assertR].
  rewrite Hg0. cbn [bindR].
  rewrite (Hl i0) by (rewrite E; now left). cbn [bindR].
  rewrite HgS. cbn [bindR].
  rewrite Htl, HlenS. change 1 with (len [i0]).
  rewrite (decode_loop_run f idx (lc order idx) r [i0]).
  - unfold f. rewrite <- pt_mul_mul, fold_shares.
    set (F := fun i => lc order idx i * v i).
    assert (Hz : zsum F idx = F i0 + zsum F r)
      by (clearbody F; rewrite E; reflexivity).
    now rewrite Hz.
  - intros i Hi. apply Hl. rewrite E. now right.
  - now rewrite E.
Qed.


End Reconstruction_facts.

(** * Further properties of the code *)

(** ** Shares *)

Lemma calc_share_loop_reduced (l : list (Z * Z)) (x p acc : Z) :
  acc mod p = acc -> __calc_share_loop l x p acc mod p = __calc_share_loop l x p acc.
Proof.
  revert acc. induction l as [|[alpha j] l IH]; intros acc Hacc; simpl.
  - exact Hacc.
  - apply IH. apply Zmod_mod.
Qed.

Lemma share_at_value (px : list Z) (p x : Z) :
  share_at px p x = horner px x mod p.
Proof.
  rewrite <- (share_at_horner p x px).
  symmetry. apply calc_share_loop_reduced. apply Zmod_0_l.
Qed.

(** X1: for a modulus [p > 0], [__calc_share] returns the value of the
    polynomial at [x], reduced modulo [p], when the coefficient list has
    the declared length; with another length it fails its assertion,
    whatever the modulus. *)
Theorem calc_share_value (px : list Z) (k x p : Z) :
  0 < p ->
  (len px = k ->
   __calc_share px k x p = Ok (horner px x mod p) /\ 0 <= horner px x mod p < p) /\
  (len px <> k -> __calc_share px k x p = Raise AssertionError).
Proof.
  intros Hp. split.
  - intros Hk. rewrite (calc_share_share_at px k x p Hk). split.
    + f_equal. apply share_at_value.
    + apply Z.mod_pos_bound. exact Hp.
  - intros Hk. unfold __calc_share.
    destruct (Z.eqb_spec (len px) k) as [Heq|_]; [contradiction|reflexivity].
Qed.

Lemma mapR_first_raise {A B} (f : A -> result B) (a : A) (l : list A) (e : exn) :
  f a = Raise e -> mapR f (a :: l) = Raise e.
Proof. intros Hf. simpl. now rewrite Hf. Qed.

(** X2: for a modulus [p > 0], [calc_shares] returns the [n] values of
    the polynomial at 1, ..., n, each reduced modulo [p]; with a wrong
    declared length it fails its assertion as soon as there is a share
    to compute, and with [n <= 0] it returns the empty list without
    checking anything. *)
Theorem calc_shares_shape (px : list Z) (k n p : Z) :
  0 < p ->
  (len px = k ->
   calc_shares px k n p = Ok (map (fun i => horner px i mod p) (range 1 (n + 1))) /\
   forall shares, calc_shares px k n p = Ok shares ->
                  len shares = Z.max 0 n /\ Forall (fun share => 0 <= share < p) shares) /\
  (len px <> k -> 1 <= n -> calc_shares px k n p = Raise AssertionError) /\
  (n <= 0 -> calc_shares px k n p = Ok []).
Proof.
  intros Hp. split; [|split].
  - intros Hk.
    assert (Hc : calc_shares px k n p
                 = Ok (map (fun i => horner px i mod p) (range 1 (n + 1)))).
    { rewrite (calc_shares_ok px k n p Hk). f_equal.
      apply map_ext. intros i. apply share_at_value. }
    split; [exact Hc|].
    intros shares. rewrite Hc. intros [= <-]. split.
    + unfold len. rewrite length_map, range_length. lia.
    + apply Forall_map, Forall_forall. intros i _. apply Z.mod_pos_bound. exact Hp.
  - intros Hk Hn. unfold calc_shares. rewrite range_cons by lia.
    apply mapR_first_raise. unfold __calc_share.
    destruct (Z.eqb_spec (len px) k) as [Heq|_]; [contradiction|reflexivity].
  - intros Hn. unfold calc_shares. now rewrite range_nil by lia.
Qed.

Section Lists_facts.

Context {Gq : EcGroup}.

Lemma get_X_i_list_nonempty (C_list : list EcPt) (n : Z) :
  C_list <> [] ->
  exists X_list, get_X_i_list C_list n = Ok X_list /\ len X_list = Z.max 0 n.
Proof.
  intros Hne. destruct C_list as [|C0 Cs]; [congruence|].
  unfold get_X_i_list.
  set (f := fun i : Z =>
         sum_elements
           (pt_mul (i ^ 0) C0)
           (tl (map (fun '(C_j, j) => pt_mul (i ^ j) C_j)
                    (zip (C0 :: Cs) (range 0 (len (C0 :: Cs))))))).
  exists (map f (range 1 (n + 1))). split.
  - apply mapR_map. intros i _. unfold __get_X_i, f.
    change (len (C0 :: Cs)) with (0 + len (C0 :: Cs)).
    rewrite range_len_cons. unfold zip. cbn [combine map].
    now rewrite getitem_0.
  - unfold len. rewrite length_map, range_length. lia.
Qed.

Lemma get_X_i_list_empty (n : Z) :
  1 <= n -> get_X_i_list [] n = Raise IndexError.
Proof.
  intros Hn. unfold get_X_i_list. rewrite range_cons by lia.
  apply mapR_first_raise. reflexivity.
Qed.

(** X3: [get_X_i_list] on an empty commitment list raises [IndexError]
    as soon as one index is asked for, returns the empty list for
    [n <= 0], and on a non-empty commitment list returns [n] points. *)
Theorem get_X_i_list_edges (C_list : list EcPt) (n : Z) :
  (C_list = [] -> 1 <= n -> get_X_i_list C_list n = Raise IndexError) /\
  (n <= 0 -> get_X_i_list C_list n = Ok []) /\
  (C_list <> [] ->
   exists X_list, get_X_i_list C_list n = Ok X_list /\ len X_list = Z.max 0 n).
Proof.
  split; [|split].
  - intros -> Hn. now apply get_X_i_list_empty.
  - intros Hn. unfold get_X_i_list. now rewrite range_nil by lia.
  - apply get_X_i_list_nonempty.
Qed.

(** X4: [__get_encrypted_shares] fails its assertion when the numbers
    of keys and shares differ, and otherwise multiplies each public key
    by the share of the same position. *)
Theorem get_encrypted_shares_spec (pub_keys : list EcPt) (shares : list Z) :
  (len pub_keys <> len shares ->
   __get_encrypted_shares pub_keys shares = Raise AssertionError) /\
  (len pub_keys = len shares ->
   __get_encrypted_shares pub_keys shares
   = Ok (map (fun '(y_i, share_i) => pt_mul share_i y_i) (zip pub_keys shares))).
Proof.
  split.
  - intros Hne. unfold __get_encrypted_shares.
    destruct (Z.eqb_spec (len pub_keys) (len shares)) as [Heq|_];
      [contradiction|reflexivity].
  - intros Heq. apply get_encrypted_shares_ok. unfold len in Heq. lia.
Qed.

End Lists_facts.

(** ** Keys and decryption *)

Section Decryption_facts.

Context {Gq : EcGroup} {Hsh : Digest}.

Lemma mod_inverse_zero (a : Z) :
  a mod order = 0 -> mod_inverse a order = Raise NoInverse.
Proof.
  intros Ha. unfold mod_inverse.
  destruct (Z.eqb_spec (Z.gcd a order) 1) as [Hg|_]; [|reflexivity].
  exfalso. exact (coprime_prime_nonzero _ _ order_prime Hg Ha).
Qed.

Lemma mod_inverse_nonzero (a : Z) :
  a mod order <> 0 -> mod_inverse a order = Ok (Z.invmod a order).
Proof.
  intros Ha. apply mod_inverse_coprime. now apply prime_coprime; [apply order_prime|].
Qed.

Lemma mod_inverse_ok_coprime (a m b : Z) :
  mod_inverse a m = Ok b -> Z.gcd a m = 1 /\ b = Z.invmod a m.
Proof.
  unfold mod_inverse. destruct (Z.eqb_spec (Z.gcd a m) 1) as [Hg|_]; [|discriminate].
  intros [= <-]. auto.
Qed.

Lemma decrypt_pub_key_mul (g0 h : EcPt) (x_i share_i : Z) :
  Z.gcd x_i order = 1 ->
  participant_decrypt (order, g0, h) x_i (pt_mul share_i (pt_mul x_i g0))
  = Ok (pt_mul share_i g0).
Proof.
  intros Hg. unfold participant_decrypt.
  rewrite (mod_inverse_coprime _ _ Hg). cbn [bindR]. f_equal.
  transitivity (pt_mul (share_i * (Z.invmod x_i order * x_i)) g0).
  - rewrite <- !pt_mul_mul. f_equal. ring.
  - apply pt_mul_cong.
    change (cong order (share_i * (Z.invmod x_i order * x_i)) share_i).
    rewrite invmod_cong by assumption. now rewrite Z.mul_1_r.
Qed.

(** X5: decryption undoes encryption: a share multiplied into the
    public key of an invertible private key decrypts, with that private
    key, to the share multiplied into the generator. *)
Theorem decrypt_encrypted_share (g0 h : EcPt) (x_i share_i : Z) :
  Z.gcd x_i order = 1 ->
  participant_decrypt (order, g0, h) x_i
    (pt_mul share_i (get_pub_key (order, g0, h) x_i))
  = Ok (pt_mul share_i g0).
Proof. intros Hg. unfold get_pub_key. now apply decrypt_pub_key_mul. Qed.

(** X6: a private key that is zero modulo the group order cannot
    decrypt: [participant_decrypt] and [participant_decrypt_and_prove]
    raise petlib's missing-inverse exception; every other private key
    decrypts any point [Y] to a point [S] with [x * S = Y]. *)
Theorem participant_decrypt_zero_key (g0 h Y_i : EcPt) (x_i : Z) (s : rng) :
  (x_i mod order = 0 ->
   participant_decrypt (order, g0, h) x_i Y_i = Raise NoInverse /\
   participant_decrypt_and_prove (order, g0, h) x_i Y_i s = Raise NoInverse) /\
  (x_i mod order <> 0 ->
   exists S_i, participant_decrypt (order, g0, h) x_i Y_i = Ok S_i /\
               pt_mul x_i S_i = Y_i).
Proof.
  split.
  - intros H0. unfold participant_decrypt_and_prove, participant_decrypt.
    rewrite (mod_inverse_zero _ H0). split; reflexivity.
  - intros Hx. unfold participant_decrypt.
    rewrite (mod_inverse_nonzero _ Hx). cbn [bindR].
    eexists. split; [reflexivity|].
    apply decrypt_encrypt. now apply prime_coprime; [apply order_prime|].
Qed.

(** X7: a key pair of [helper_generate_key_pair] has its private key in
    [[0, p)] and the public key [get_pub_key] computes from it; unless
    the draw was zero, the pair decrypts what was encrypted under it,
    and when the draw was zero decryption raises on every input. *)
Theorem key_pair_spec (g0 h : EcPt) (s s' : rng) (x_i : Z) (y_i : EcPt) :
  helper_generate_key_pair (order, g0, h) s = Ok (x_i, y_i, s') ->
  0 <= x_i < order /\
  y_i = get_pub_key (order, g0, h) x_i /\
  (x_i <> 0 ->
   forall share_i, participant_decrypt (order, g0, h) x_i (pt_mul share_i y_i)
                   = Ok (pt_mul share_i g0)) /\
  (x_i = 0 ->
   forall Y_i, participant_decrypt (order, g0, h) x_i Y_i = Raise NoInverse).
Proof.
  unfold helper_generate_key_pair, bindM, random, retM. intros [= <- <- _].
  pose proof order_pos as Hp.
  pose proof (Z.mod_pos_bound (s 0%nat) order Hp) as Hb.
  split; [exact Hb|]. split; [reflexivity|]. split.
  - intros Hx share_i.
    apply (decrypt_pub_key_mul g0 h).
    apply prime_coprime; [apply order_prime|]. now rewrite Zmod_mod.
  - intros Hx Y_i. unfold participant_decrypt.
    rewrite mod_inverse_zero; [reflexivity|]. rewrite Hx. apply Zmod_0_l.
Qed.

(** ** Single proofs *)

(** X8: completeness of the single proof: for any two bases and any
    exponent [x], what [DLEQ_prove] returns for [h_1 = x * g_1] and
    [h_2 = x * g_2] passes [DLEQ_verify_single], whatever the draw. *)
Theorem DLEQ_single_completeness (g0 h g_1 g_2 : EcPt) (x_i : Z) (s : rng) :
  exists (prf : single_proof) (s' : rng),
    DLEQ_prove (order, g0, h) g_1 g_2 (pt_mul x_i g_1) (pt_mul x_i g_2) x_i s
    = Ok (prf, s') /\
    DLEQ_verify_single order g_1 g_2 (pt_mul x_i g_1) (pt_mul x_i g_2) prf = true.
Proof.
  unfold DLEQ_prove, bindM, random, retM, __DLEQ_prover_calc_a.
  do 2 eexists. split; [reflexivity|].
  unfold DLEQ_verify_single. rewrite Z.eqb_refl. cbn [negb].
  now apply DLEQ_verify_honest.
Qed.

Lemma DLEQ_verify_true (g_1 g_2 h_1 h_2 a_1 a_2 : EcPt) (c0 r : Z) :
  DLEQ_verify g_1 g_2 h_1 h_2 (c0, r, a_1, a_2) = true <->
  a_1 = pt_add (pt_mul r g_1) (pt_mul c0 h_1) /\
  a_2 = pt_add (pt_mul r g_2) (pt_mul c0 h_2).
Proof.
  unfold DLEQ_verify, DLEQ_verifyer_calc_a.
  rewrite <- !pt_eqb_eq.
  destruct (pt_eqb a_1 _), (pt_eqb a_2 _); cbn [andb]; intuition discriminate.
Qed.

(** X9: [DLEQ_verify_single] accepts exactly the proofs whose challenge
    is the hash of [h_1], [h_2], [a_1], [a_2] and whose two
    commitments satisfy [a_1 = r * g_1 + c * h_1] and
    [a_2 = r * g_2 + c * h_2]. *)
Theorem DLEQ_verify_single_spec (p : Z) (g_1 g_2 h_1 h_2 a_1 a_2 : EcPt) (c0 r : Z) :
  DLEQ_verify_single p g_1 g_2 h_1 h_2 (c0, r, a_1, a_2) = true <->
  c0 = hash p (PPt h_1) (PPt h_2) (PPt a_1) (PPt a_2) /\
  a_1 = pt_add (pt_mul r g_1) (pt_mul c0 h_1) /\
  a_2 = pt_add (pt_mul r g_2) (pt_mul c0 h_2).
Proof.
  unfold DLEQ_verify_single.
  destruct (Z.eqb_spec (hash p (PPt h_1) (PPt h_2) (PPt a_1) (PPt a_2)) c0) as [Hc|Hc];
    cbn [negb].
  - rewrite DLEQ_verify_true. intuition congruence.
  - split; [discriminate|]. intros (Hc' & _). now symmetry in Hc'.
Qed.

(** X10: the verifier does not ask for a reduced response: adding any
    multiple of the group order to [r] in a proof does not change the
    verdict of [DLEQ_verify_single]. *)
Theorem DLEQ_response_malleable (g_1 g_2 h_1 h_2 a_1 a_2 : EcPt) (c0 r m : Z) :
  DLEQ_verify_single order g_1 g_2 h_1 h_2 (c0, r + m * order, a_1, a_2)
  = DLEQ_verify_single order g_1 g_2 h_1 h_2 (c0, r, a_1, a_2).
Proof.
  unfold DLEQ_verify_single, DLEQ_verify, DLEQ_verifyer_calc_a.
  assert (Hr : forall g, pt_mul (r + m * order) g = pt_mul r g).
  { intros g. apply pt_mul_cong. apply Z_mod_plus_full. }
  now rewrite !Hr.
Qed.

Lemma decrypt_and_prove_verifies (g0 h Y_i S_i : EcPt) (x_i : Z) (s s' : rng)
  (prf : single_proof) :
  participant_decrypt_and_prove (order, g0, h) x_i Y_i s = Ok (S_i, prf, s') ->
  verify_correct_decryption S_i Y_i prf (pt_mul x_i g0) order g0 = true.
Proof.
  unfold participant_decrypt_and_prove, participant_decrypt.
  destruct (mod_inverse x_i order) as [inv|e] eqn:Hinv; [|discriminate].
  apply mod_inverse_ok_coprime in Hinv. destruct Hinv as [Hg ->].
  cbn [bindR]. unfold bindM, liftM, DLEQ_prove, random, retM, __DLEQ_prover_calc_a.
  intros [= <- <- _].
  unfold verify_correct_decryption, DLEQ_verify_single.
  rewrite Z.eqb_refl. cbn [negb].
  apply DLEQ_verify_honest; [reflexivity|]. now rewrite decrypt_encrypt.
Qed.

(** X11: whatever a list of participants returns from
    [participant_decrypt_and_prove], each on its own encrypted share and
    with its own random draws, passes
    [batch_verify_correct_decryption] against their public keys. *)
Theorem batch_decryption_completeness (g0 h : EcPt)
  (participants : list (Z * EcPt * rng)) (proved_decryptions : list (EcPt * single_proof)) :
  Forall2 (fun '(x_i, Y_i, s) out =>
             exists s', participant_decrypt_and_prove (order, g0, h) x_i Y_i s
                        = Ok (out, s'))
          participants proved_decryptions ->
  batch_verify_correct_decryption proved_decryptions
    (map (fun '(x_i, Y_i, s) => Y_i) participants)
    (map (fun '(x_i, Y_i, s) => pt_mul x_i g0) participants)
    order g0 = true.
Proof.
  intros HF. unfold batch_verify_correct_decryption, zip.
  induction HF as [|[[x_i Y_i] s] [S_i prf] l outs (s' & Hrun) _ IH]; [reflexivity|].
  cbn [map combine batch_verify_loop].
  rewrite (decrypt_and_prove_verifies _ _ _ _ _ _ _ _ Hrun). cbn [negb].
  exact IH.
Qed.

Lemma combine_firstn_r {A B} (l : list A) (l' : list B) :
  combine l l' = combine l (firstn (length l) l').
Proof.
  revert l'. induction l as [|a l IH]; intros [|b l']; simpl; try reflexivity.
  now rewrite <- IH.
Qed.

Lemma combine_firstn_both {A B} (l : list A) (l' : list B) (m : nat) :
  firstn m (combine l l') = combine (firstn m l) (firstn m l').
Proof.
  revert l l'. induction m as [|m IH]; intros [|a l] [|b l']; simpl; try reflexivity.
  now rewrite IH.
Qed.

(** X12: [batch_verify_correct_decryption] never compares lengths: it
    checks the proved decryptions it is given against the first
    encrypted shares and public keys, and ignores the others; with no
    proved decryption it returns [True]. *)
Theorem batch_verify_ignores_surplus
  (proved_decryptions : list (EcPt * single_proof)) (Y_list pub_keys : list EcPt)
  (p : Z) (G : EcPt) :
  let m := length proved_decryptions in
  batch_verify_correct_decryption proved_decryptions Y_list pub_keys p G
  = batch_verify_correct_decryption proved_decryptions
      (firstn m Y_list) (firstn m pub_keys) p G /\
  batch_verify_correct_decryption [] Y_list pub_keys p G = true.
Proof.
  intros m. split; [|reflexivity].
  unfold batch_verify_correct_decryption, zip. f_equal.
  rewrite (combine_firstn_r proved_decryptions (combine Y_list pub_keys)).
  rewrite combine_firstn_both. reflexivity.
Qed.

End Decryption_facts.

(** ** Batch proofs *)

Section Batch_facts.

Context {Gq : EcGroup} {Hsh : Digest}.

Lemma DLEQ_verify_list_loop_true (g : EcPt) (c0 : Z)
  (l : list (EcPt * (EcPt * (EcPt * (Z * (EcPt * EcPt)))))) :
  DLEQ_verify_list_loop g c0 l = true <->
  forall g_2 h_1 h_2 r_i a_1 a_2,
    In (g_2, (h_1, (h_2, (r_i, (a_1, a_2))))) l ->
    DLEQ_verify g g_2 h_1 h_2 (c0, r_i, a_1, a_2) = true.
Proof.
  induction l as [|[g_2 [h_1 [h_2 [r_i [a_1 a_2]]]]] l IH]; cbn [DLEQ_verify_list_loop].
  - split; [intros _ ? ? ? ? ? ? []|reflexivity].
  - destruct (DLEQ_verify g g_2 h_1 h_2 (c0, r_i, a_1, a_2)) eqn:E; cbn [negb].
    + rewrite IH. split.
      * intros Hl ? ? ? ? ? ? [[= <- <- <- <- <- <-]|Hin]; auto.
      * intros Hl ? ? ? ? ? ? Hin. apply Hl. now right.
    + split; [discriminate|]. intros Hl.
      rewrite <- E. apply Hl. now left.
Qed.

(** X13: with a non-empty commitment list [DLEQ_verify_list] never
    raises; it returns [True] exactly when the claimed challenge is the
    hash of the recomputed [X_list], [Y_list] and the two commitment
    lists, and every zipped relation satisfies
    [a_1 = r_i * g + c * X_i] and [a_2 = r_i * y_i + c * Y_i]. *)
Theorem DLEQ_verify_list_spec (p : Z) (g : EcPt) (y_list C_list Y_list : list EcPt)
  (prf : proof) :
  C_list <> [] ->
  exists X_list (verdict : bool),
    get_X_i_list C_list (len prf.(r_list)) = Ok X_list /\
    DLEQ_verify_list p g y_list C_list Y_list prf = Ok verdict /\
    (verdict = true <->
     prf.(c) = hash p (PList X_list) (PList Y_list)
                 (PList prf.(a_1_list)) (PList prf.(a_2_list)) /\
     forall g_2 h_1 h_2 r_i a_1 a_2,
       In (g_2, (h_1, (h_2, (r_i, (a_1, a_2)))))
          (zip y_list (zip X_list (zip Y_list (zip prf.(r_list)
             (zip prf.(a_1_list) prf.(a_2_list)))))) ->
       a_1 = pt_add (pt_mul r_i g) (pt_mul prf.(c) h_1) /\
       a_2 = pt_add (pt_mul r_i g_2) (pt_mul prf.(c) h_2)).
Proof.
  intros Hne.
  destruct (get_X_i_list_nonempty C_list (len prf.(r_list)) Hne) as (X_list & HX & _).
  exists X_list. unfold DLEQ_verify_list. rewrite HX. cbn [bindR].
  set (c1 := hash p (PList X_list) (PList Y_list)
               (PList (a_1_list prf)) (PList (a_2_list prf))).
  destruct (Z.eqb_spec (c prf) c1) as [Hc|Hc]; cbn [negb].
  - eexists. split; [reflexivity|]. split; [reflexivity|].
    rewrite <- Hc, DLEQ_verify_list_loop_true. split.
    + intros Hl. split; [reflexivity|]. intros ? ? ? ? ? ? Hin.
      apply DLEQ_verify_true. now apply Hl.
    + intros [_ Hl] ? ? ? ? ? ? Hin. apply DLEQ_verify_true. now apply Hl.
  - exists false. split; [reflexivity|]. split; [reflexivity|].
    split; [discriminate|]. intros [Hc' _]. contradiction.
Qed.

(** X14: with an empty commitment list and a proof that holds at least
    one response, [DLEQ_verify_list] raises [IndexError] instead of
    returning a verdict. *)
Theorem DLEQ_verify_list_no_commitments (p : Z) (g : EcPt) (y_list Y_list : list EcPt)
  (prf : proof) :
  prf.(r_list) <> [] ->
  DLEQ_verify_list p g y_list [] Y_list prf = Raise IndexError.
Proof.
  intros Hr. unfold DLEQ_verify_list.
  rewrite get_X_i_list_empty; [reflexivity|].
  destruct (r_list prf) as [|r rs]; [congruence|].
  rewrite len_cons. pose proof (len_nonneg rs). lia.
Qed.

(** X15: [DLEQ_verify_list] never compares the number of responses with
    the number of participants: a proof without responses, whose
    challenge is the hash of the empty [X_list], [Y_list] and its two
    commitment lists, is accepted for any commitments, encrypted shares
    and public keys. *)
Theorem DLEQ_verify_list_empty_proof (p : Z) (g : EcPt)
  (y_list C_list Y_list a_1s a_2s : list EcPt) :
  DLEQ_verify_list p g y_list C_list Y_list
    {| c := hash p (PList []) (PList Y_list) (PList a_1s) (PList a_2s);
       r_list := [];
       a_1_list := a_1s;
       a_2_list := a_2s |}
  = Ok true.
Proof.
  unfold DLEQ_verify_list. cbn [r_list c a_1_list a_2_list].
  change (len (@nil Z)) with 0.
  unfold get_X_i_list. rewrite range_nil by lia. cbn [mapR bindR].
  rewrite Z.eqb_refl. cbn [negb]. f_equal.
  unfold zip. now destruct y_list.
Qed.


(** X17: for a non-empty commitment list and as many encrypted shares
    as public keys, [DLEQ_prove_list] returns a proof that holds one
    commitment pair per participant, one response per share up to the
    number of participants, each response in [[0, p)]; it consumes one
    draw per participant. *)
Theorem DLEQ_prove_list_shape (p : Z) (g : EcPt) (C_list Y_list y_list : list EcPt)
  (shares_list : list Z) (s : rng) :
  C_list <> [] -> len Y_list = len y_list -> 0 < p ->
  exists prf,
    DLEQ_prove_list p g C_list Y_list y_list shares_list s
    = Ok (prf, shift (length Y_list) s) /\
    len prf.(a_1_list) = len Y_list /\
    len prf.(a_2_list) = len Y_list /\
    len prf.(r_list) = Z.min (len shares_list) (len Y_list) /\
    Forall (fun r => 0 <= r < p) prf.(r_list).
Proof.
  intros HC Hlen Hp.
  destruct (get_X_i_list_nonempty C_list (len Y_list) HC) as (X_list & HX & _).
  assert (Hlen' : length Y_list = length y_list) by (unfold len in Hlen; lia).
  eexists. split; [apply (DLEQ_prove_list_run p g C_list Y_list y_list X_list
                            shares_list s HX Hlen')|].
  unfold honest_proof. cbn [c r_list a_1_list a_2_list].
  unfold len, zip, __DLEQ_calc_all_r.
  rewrite !length_map, !length_combine, draws_length.
  repeat split; try lia.
  apply Forall_forall. intros r Hr. apply in_map_iff in Hr.
  destruct Hr as ([alpha w] & <- & _). unfold __DLEQ_calc_r.
  apply Z.mod_pos_bound. lia.
Qed.

End Batch_facts.

(** ** Reconstruction from any shares *)

Lemma lagrange_outcome (p : Z) (l : list Z) (i : Z) :
  Z.prime p ->
  (units_at p l i /\ __lagrange i l p = Ok (lc p l i)) \/
  ((exists j, In j l /\ j <> i /\ (j - i) mod p = 0) /\
   __lagrange i l p = Raise NoInverse).
Proof.
  intros Hp. destruct (units_at_dec p l i) as [Hu|Hex].
  - left. split; [assumption|now apply lagrange_ok].
  - right. split; [assumption|now apply lagrange_fail].
Qed.

Lemma getitem_app_head {A} (pre rest : list A) (a : A) :
  getitem (pre ++ a :: rest) (len pre) = Ok a.
Proof.
  apply getitem_nth. rewrite nth_error_app2 by lia. now rewrite Nat.sub_diag.
Qed.

Lemma len_snoc {A} (pre : list A) (a : A) : len pre + 1 = len (pre ++ [a]).
Proof. unfold len. rewrite length_app. simpl. lia. Qed.

Section Decode_facts.

Context {Gq : EcGroup}.

Lemma decode_loop_ok (p : Z) (idx rest : list Z) :
  forall (Ss : list EcPt) (pre : list Z) (ans : EcPt),
    (forall i, In i rest -> exists co, __lagrange i idx p = Ok co) ->
    idx = pre ++ rest -> length Ss = length rest ->
    exists P, decode_loop (zip Ss (range (len pre) (len pre + len Ss))) idx p ans = Ok P.
Proof.
  induction rest as [|i r IH]; intros [|S0 Ss] pre ans Hl Hidx Hlen; try discriminate.
  - exists ans. reflexivity.
  - rewrite range_len_cons. unfold zip. cbn [combine decode_loop].
    assert (Hget : getitem idx (len pre) = Ok i)
      by (rewrite Hidx; apply getitem_app_head).
    rewrite Hget. cbn [bindR].
    destruct (Hl i (or_introl eq_refl)) as [co Hco]. rewrite Hco. cbn [bindR].
    rewrite (len_snoc pre i).
    apply (IH Ss (pre ++ [i])).
    + intros j Hj. apply Hl. now right.
    + subst idx. now rewrite <- app_assoc.
    + now injection Hlen.
Qed.

Lemma decode_loop_fail (p : Z) (idx rest : list Z) :
  Z.prime p ->
  forall (Ss : list EcPt) (pre : list Z) (ans : EcPt),
    (exists i j, In i rest /\ In j idx /\ j <> i /\ (j - i) mod p = 0) ->
    idx = pre ++ rest -> length Ss = length rest ->
    decode_loop (zip Ss (range (len pre) (len pre + len Ss))) idx p ans
    = Raise NoInverse.
Proof.
  intros Hp.
  induction rest as [|i r IH]; intros [|S0 Ss] pre ans Hex Hidx Hlen; try discriminate.
  - destruct Hex as (i & _ & [] & _).
  - rewrite range_len_cons. unfold zip. cbn [combine decode_loop].
    assert (Hget : getitem idx (len pre) = Ok i)
      by (rewrite Hidx; apply getitem_app_head).
    rewrite Hget. cbn [bindR].
    destruct (lagrange_outcome p idx i Hp) as [[Hu Hok]|[_ Hfail]].
    + rewrite Hok. cbn [bindR]. rewrite (len_snoc pre i).
      apply (IH Ss (pre ++ [i])).
      * destruct Hex as (i' & j & [<-|Hi'] & Hj & Hne & H0).
        -- exfalso. exact (Hu j Hj Hne H0).
        -- exists i', j. auto.
      * subst idx. now rewrite <- app_assoc.
      * now injection Hlen.
    + now rewrite Hfail.
Qed.

(** X18: [decode] fails its assertion when the numbers of shares and
    of indices differ, raises [IndexError] on empty lists, and returns
    a single share unchanged whatever its index. *)
Theorem decode_edges (S_list : list EcPt) (index_list : list Z) (p : Z) :
  (len S_list <> len index_list ->
   decode S_list index_list p = Raise AssertionError) /\
  (S_list = [] -> index_list = [] -> decode S_list index_list p = Raise IndexError) /\
  (2 <= p -> forall S_i i, decode [S_i] [i] p = Ok S_i).
Proof.
  split; [|split].
  - intros Hne. unfold decode.
    destruct (Z.eqb_spec (len S_list) (len index_list)) as [Heq|_];
      [contradiction|reflexivity].
  - intros -> ->. reflexivity.
  - intros Hp S_i i. unfold decode. cbn [bindR assertR].
    change (len [S_i] =? len [i]) with true. cbn [bindR assertR].
    rewrite getitem_0. cbn [bindR].
    unfold __lagrange. cbn [__lagrange_loop]. rewrite Z.eqb_refl. cbn [negb].
    unfold mod_inverse. rewrite Z.gcd_1_l. cbn [Z.eqb Pos.eqb bindR].
    rewrite getitem_0. cbn [bindR tl].
    unfold zip. cbn [combine decode_loop].
    f_equal. unfold mod_mul. rewrite Z.invmod_1_l, Z.mul_1_l, Zmod_mod.
    rewrite Z.mod_1_l by lia. apply pt_mul_1.
Qed.

(** X19: for a prime [p] and as many shares as indices, at least one,
    [decode] raises petlib's missing-inverse exception when two listed
    indices are different numbers congruent modulo [p], and returns a
    point when no two are; it never fails in another way. *)
Theorem decode_fails_iff (S_list : list EcPt) (index_list : list Z) (p : Z) :
  Z.prime p -> len S_list = len index_list -> index_list <> [] ->
  ((exists i j, In i index_list /\ In j index_list /\ j <> i /\ (j - i) mod p = 0) ->
   decode S_list index_list p = Raise NoInverse) /\
  ((forall i j, In i index_list -> In j index_list -> j <> i -> (j - i) mod p <> 0) ->
   exists P, decode S_list index_list p = Ok P).
Proof.
  intros Hp Hlen Hne.
  destruct index_list as [|i0 r] eqn:E; [congruence|]. rewrite <- E in *.
  destruct S_list as [|S0 Sr].
  { exfalso. rewrite E in Hlen. rewrite len_cons in Hlen.
    change (len (@nil EcPt)) with 0 in Hlen. pose proof (len_nonneg r). lia. }
  assert (Hg0 : getitem index_list 0 = Ok i0) by (rewrite E; apply getitem_0).
  assert (Hlr : length Sr = length r).
  { rewrite E in Hlen. rewrite !len_cons in Hlen. unfold len in Hlen. lia. }
  assert (Hrange : range 1 (len (S0 :: Sr)) = range (len [i0]) (len [i0] + len Sr)).
  { rewrite len_cons. change (len [i0]) with 1. f_equal. lia. }
  unfold decode.
  rewrite (proj2 (Z.eqb_eq _ _) Hlen). cbn [bindR assertR].
  rewrite Hg0. cbn [bindR]. rewrite getitem_0. cbn [tl]. rewrite Hrange.
  split.
  - intros Hex.
    destruct (lagrange_outcome p index_list i0 Hp) as [[Hu Hok]|[_ Hfail]];
      [|now rewrite Hfail].
    rewrite Hok. cbn [bindR].
    apply (decode_loop_fail p index_list r Hp Sr [i0]); [|now rewrite E|assumption].
    destruct Hex as (i & j & Hi & Hj & Hji & H0).
    rewrite E in Hi. destruct Hi as [<-|Hi].
    + exfalso. exact (Hu j Hj Hji H0).
    + exists i, j. auto.
  - intros Hall.
    rewrite (lagrange_ok p index_list i0 Hp)
      by (intros j Hj; apply Hall; [rewrite E; now left|assumption]).
    cbn [bindR].
    apply (decode_loop_ok p index_list r Sr [i0]); [|now rewrite E|assumption].
    intros i Hi. exists (lc p index_list i). apply lagrange_ok; [assumption|].
    intros j Hj. apply Hall; [rewrite E; now right|assumption].
Qed.

Lemma decode_honest (G : EcPt) (px index_list : list Z) :
  (length px <= length index_list)%nat -> index_list <> [] ->
  distinct_mod order index_list ->
  decode (map (fun i => pt_mul (share_at px order i) G) index_list) index_list order
  = Ok (pt_mul (horner px 0) G).
Proof.
  intros Hlen Hne Hd. rewrite decode_run by assumption. f_equal.
  apply pt_mul_cong.
  change (cong order (zsum (fun i => lc order index_list i * share_at px order i)
                           index_list) (horner px 0)).
  rewrite (zsum_cong order _ (fun i => lc order index_list i * horner px i))
    by (intros i _; now rewrite share_at_horner).
  now apply (interpolate_zero order order_prime).
Qed.

(** X20: reconstruction works from any number of shares from the
    threshold up: for [1 <= t < n < p], [decode] applied to the honestly
    decrypted shares of [t] or more distinct indices of [[1, n]] returns
    [m * G]. *)
Theorem reconstruction_from_more_shares (G : EcPt) (t n m : Z) (s s1 : rng)
  (px shares index_list : list Z) (S_list : list EcPt) :
  1 <= t -> t < n -> n < order ->
  gen_polynomial t m order s = Ok (px, s1) ->
  calc_shares px t n order = Ok shares ->
  NoDup index_list -> t <= len index_list ->
  (forall i, In i index_list -> 1 <= i <= n) ->
  Forall2 (fun i S_i => exists share_i,
             getitem shares (i - 1) = Ok share_i /\ S_i = pt_mul share_i G)
          index_list S_list ->
  decode S_list index_list order = Ok (pt_mul m G).
Proof.
  intros Ht Htn Hnp Hpoly Hshares Hnd Hlen Hrange HS.
  destruct (gen_polynomial_inv _ _ _ _ _ _ Ht Hpoly) as [Hl [r ->]].
  rewrite (calc_shares_ok _ _ n order Hl) in Hshares. injection Hshares as <-.
  assert (HSl : S_list = map (fun i => pt_mul (share_at (m :: r) order i) G) index_list).
  { clear Hnd Hlen. induction HS as [|i S_i il Sl (sh & Hsh & ->) _ IH]; [reflexivity|].
    cbn [map]. f_equal.
    - rewrite getitem_map_range in Hsh by (apply Hrange; now left).
      now injection Hsh as <-.
    - apply IH. intros j Hj. apply Hrange. now right. }
  subst S_list.
  rewrite decode_honest.
  - cbn [horner]. now rewrite Z.mul_0_l, Z.add_0_r.
  - unfold len in *. lia.
  - intros ->. change (len (@nil Z)) with 0 in Hlen. lia.
  - eapply distinct_small; eassumption.
Qed.

End Decode_facts.

(** X21: the Lagrange coefficients of a non-empty list of indices that
    are pairwise different modulo a prime [p] are all computed, lie in
    [[0, p)], and sum to one modulo [p]. *)
Theorem lagrange_sum_one (index_list : list Z) (p : Z) :
  Z.prime p -> index_list <> [] -> distinct_mod p index_list ->
  exists coefficients,
    mapR (fun i => __lagrange i index_list p) index_list = Ok coefficients /\
    Forall (fun co => 0 <= co < p) coefficients /\
    fold_right Z.add 0 coefficients mod p = 1.
Proof.
  intros Hp Hne Hd. assert (Hp2 := Z.prime_ge_2 _ Hp).
  exists (map (lc p index_list) index_list). split; [|split].
  - apply mapR_map. intros i Hi. apply lagrange_ok; [assumption|].
    now apply distinct_units.
  - apply Forall_forall. intros co Hco. apply in_map_iff in Hco.
    destruct Hco as (i & <- & _). unfold lc, mod_mul. apply Z.mod_pos_bound. lia.
  - assert (Hs : fold_right Z.add 0 (map (lc p index_list) index_list)
                 = zsum (lc p index_list) index_list).
    { generalize (lc p index_list). intros F.
      induction index_list as [|i l IH]; [reflexivity|]. simpl.
      destruct l as [|i' l']; [reflexivity|].
      rewrite IH; [reflexivity|discriminate|].
      unfold distinct_mod in *. simpl in Hd. now inversion Hd. }
    rewrite Hs.
    destruct index_list as [|i0 r] eqn:E; [congruence|]. rewrite <- E in *.
    assert (Hn : length index_list = S (length r)) by (now rewrite E).
    pose proof (lc_sum_one p Hp (length r) index_list Hn Hd) as Hc.
    unfold cong in Hc. rewrite Hc. apply Z.mod_1_l. lia.
Qed.

(** ** The dealer, from its inputs to its output *)

Lemma bindM_lift_raise {A B} (r : result A) (k : A -> M B) (s : rng) (e : exn) :
  r = Raise e -> bindM (liftM r) k s = Raise e.
Proof. intros ->. reflexivity. Qed.

Lemma getitem_nth_inv {A} (l : list A) (i : Z) (a : A) :
  0 <= i -> getitem l i = Ok a -> nth_error l (Z.to_nat i) = Some a.
Proof.
  intros Hi. unfold getitem.
  destruct (Z.ltb_spec i 0) as [Hneg|_]; [lia|].
  destruct (Z.ltb_spec i 0) as [Hneg|_]; [lia|].
  destruct (nth_error l (Z.to_nat i)); [|discriminate]. now intros [= <-].
Qed.

Section Dealer_output.

Context {Gq : EcGroup} {Hsh : Digest}.

Lemma gen_proof_low_threshold (p : Z) (g0 h : EcPt) (k n secret : Z)
  (pub_keys : list EcPt) (s : rng) :
  k <= 0 -> gen_proof (p, g0, h) k n secret pub_keys s = Raise AssertionError.
Proof.
  intros Hk. unfold gen_proof.
  destruct (Z.ltb_spec k n) as [Hkn|Hkn];
    [|now rewrite bindM_assert_false by reflexivity].
  rewrite bindM_assert_true by reflexivity.
  destruct (Z.eqb_spec (len pub_keys) n) as [Hpk|Hpk];
    [|now rewrite bindM_assert_false by reflexivity].
  rewrite bindM_assert_true by reflexivity.
  rewrite (bindM_ok _ _ _ _ _ (gen_polynomial_run k secret p s)).
  replace (Z.to_nat (k - 1)) with 0%nat by lia. cbn [draws shift].
  destruct (Z.le_gt_cases 1 n) as [Hn|Hn].
  - apply bindM_lift_raise. unfold calc_shares. rewrite range_cons by lia.
    apply mapR_first_raise. unfold __calc_share.
    change (len [secret]) with 1.
    destruct (Z.eqb_spec 1 k) as [Heq|_]; [lia|reflexivity].
  - destruct pub_keys as [|y ys];
      [|rewrite len_cons in Hpk; pose proof (len_nonneg ys); lia].
    change (len (@nil EcPt)) with 0 in Hpk. subst n.
    assert (Hcs : calc_shares [secret] k 0 p = Ok [])
      by (unfold calc_shares; now rewrite range_nil by lia).
    rewrite (bindM_lift_ok _ _ _ _ Hcs).
    assert (Hes : __get_encrypted_shares (@nil EcPt) [] = Ok []) by reflexivity.
    rewrite (bindM_lift_ok _ _ _ _ Hes).
    assert (HX : get_X_i_list (get_commitments h [secret]) (len (@nil EcPt)) = Ok []).
    { unfold get_X_i_list. change (len (@nil EcPt)) with 0.
      now rewrite range_nil by lia. }
    rewrite (bindM_ok _ _ _ _ _
               (DLEQ_prove_list_run p h _ [] [] [] [] s HX eq_refl)).
    apply bindM_assert_false. change (len [secret]) with 1.
    apply Z.eqb_neq. lia.
Qed.

Lemma gen_proof_ok_inv (p : Z) (g0 h : EcPt) (k n secret : Z)
  (pub_keys : list EcPt) (s : rng) (out : public * proof * rng) :
  gen_proof (p, g0, h) k n secret pub_keys s = Ok out ->
  1 <= k /\ k < n /\ len pub_keys = n.
Proof.
  intros Hrun.
  destruct (Z.le_gt_cases k 0) as [Hk|Hk].
  { rewrite gen_proof_low_threshold in Hrun by assumption. discriminate. }
  unfold gen_proof in Hrun.
  destruct (Z.ltb_spec k n) as [Hkn|Hkn];
    [|rewrite bindM_assert_false in Hrun by reflexivity; discriminate].
  rewrite bindM_assert_true in Hrun by reflexivity.
  destruct (Z.eqb_spec (len pub_keys) n) as [Hpk|Hpk];
    [|rewrite bindM_assert_false in Hrun by reflexivity; discriminate].
  repeat split; lia || assumption.
Qed.

Lemma gen_proof_ok_explicit (g0 h : EcPt) (k n secret : Z) (pub_keys : list EcPt)
  (s s' : rng) (pub : public) (prf : proof) :
  gen_proof (order, g0, h) k n secret pub_keys s = Ok (pub, prf, s') ->
  let px := secret :: draws (Z.to_nat (k - 1)) order s in
  let shares := map (share_at px order) (range 1 (n + 1)) in
  let enc := map (fun '(y, sh) => pt_mul sh y) (zip pub_keys shares) in
  let X := map (fun sh => pt_mul sh h) shares in
  1 <= k /\ k < n /\ len pub_keys = n /\ len px = k /\
  share_at px order 1 <> secret /\
  pub = {| C_list := get_commitments h px; Y_list := enc |} /\
  prf = honest_proof order h X enc pub_keys shares
          (draws (length enc) order (shift (Z.to_nat (k - 1)) s)).
Proof.
  intros Hrun px shares enc X.
  destruct (gen_proof_ok_inv _ _ _ _ _ _ _ _ _ Hrun) as (Hk & Hkn & Hpk).
  pose proof (gen_polynomial_run k secret order s) as Hpoly.
  destruct (gen_polynomial_inv _ _ _ _ _ _ Hk Hpoly) as [Hpx _].
  rewrite (gen_proof_run g0 h k n secret pub_keys s _ _ Hk Hkn Hpk Hpoly) in Hrun.
  fold px in Hrun, Hpx. fold shares in Hrun. fold enc in Hrun. fold X in Hrun.
  destruct (Z.eqb_spec (share_at px order 1) secret) as [Heq|Hne]; [discriminate|].
  injection Hrun as <- <- _. repeat split; assumption || reflexivity.
Qed.

(** X22: the dealer returns a bundle exactly when [1 <= k < n], there
    are [n] public keys and the first share differs from the secret; in
    particular a threshold below one is rejected.  Whenever it fails, it
    fails an assertion. *)
Theorem gen_proof_returns_iff (g0 h : EcPt) (k n secret : Z) (pub_keys : list EcPt)
  (s s1 : rng) (px : list Z) :
  gen_polynomial k secret order s = Ok (px, s1) ->
  ((exists out, gen_proof (order, g0, h) k n secret pub_keys s = Ok out) <->
   1 <= k < n /\ len pub_keys = n /\ __calc_share px k 1 order <> Ok secret) /\
  (forall e, gen_proof (order, g0, h) k n secret pub_keys s = Raise e ->
             e = AssertionError).
Proof.
  intros Hpoly.
  destruct (Z.le_gt_cases k 0) as [Hk0|Hk0].
  { rewrite gen_proof_low_threshold by assumption. split.
    - split; [intros [out Hout]; discriminate|lia].
    - now intros e [= <-]. }
  assert (Hk : 1 <= k) by lia.
  destruct (gen_polynomial_inv _ _ _ _ _ _ Hk Hpoly) as [Hpx _].
  rewrite (calc_share_share_at px k 1 order Hpx).
  destruct (Z.ltb_spec k n) as [Hkn|Hkn]; cycle 1.
  { unfold gen_proof. rewrite bindM_assert_false by (apply Z.ltb_ge; lia). split.
    - split; [intros [out Hout]; discriminate|lia].
    - now intros e [= <-]. }
  destruct (Z.eqb_spec (len pub_keys) n) as [Hpk|Hpk]; cycle 1.
  { unfold gen_proof. rewrite bindM_assert_true by (apply Z.ltb_lt; lia).
    rewrite bindM_assert_false by (now apply Z.eqb_neq). split.
    - split; [intros [out Hout]; discriminate|tauto].
    - now intros e [= <-]. }
  rewrite (gen_proof_run g0 h k n secret pub_keys s s1 px Hk Hkn Hpk Hpoly).
  destruct (Z.eqb_spec (share_at px order 1) secret) as [Heq|Hne].
  - split.
    + split; [intros [out Hout]; discriminate|].
      intros (_ & _ & Hs). exfalso. apply Hs. now rewrite Heq.
    + now intros e [= <-].
  - split.
    + split; [|eauto]. intros _. repeat split; try lia; try assumption.
      intros [= Heq]. contradiction.
    + intros e He. discriminate.
Qed.

(** X23: a returned bundle holds the commitments of a polynomial of
    length [k] whose constant coefficient is the secret, and the [n]
    shares of that polynomial encrypted under the public keys; the
    points [get_X_i_list] recomputes from the commitments are the same
    shares multiplied into [h]. *)
Theorem gen_proof_bundle (g0 h : EcPt) (k n secret : Z) (pub_keys : list EcPt)
  (s s' : rng) (pub : public) (prf : proof) :
  gen_proof (order, g0, h) k n secret pub_keys s = Ok (pub, prf, s') ->
  exists (px_rand shares : list Z),
    len (secret :: px_rand) = k /\
    pub.(C_list) = get_commitments h (secret :: px_rand) /\
    calc_shares (secret :: px_rand) k n order = Ok shares /\
    __get_encrypted_shares pub_keys shares = Ok pub.(Y_list) /\
    len pub.(Y_list) = n /\
    get_X_i_list pub.(C_list) n = Ok (map (fun share_i => pt_mul share_i h) shares).
Proof.
  intros Hrun.
  destruct (gen_proof_ok_explicit _ _ _ _ _ _ _ _ _ _ Hrun)
    as (Hk & Hkn & Hpk & Hpx & _ & -> & _).
  set (px := secret :: draws (Z.to_nat (k - 1)) order s) in *.
  set (shares := map (share_at px order) (range 1 (n + 1))).
  exists (draws (Z.to_nat (k - 1)) order s), shares.
  assert (Hls : length shares = Z.to_nat n)
    by (unfold shares; rewrite length_map, range_length; lia).
  assert (Hpk' : length pub_keys = Z.to_nat n) by (unfold len in Hpk; lia).
  cbn [C_list Y_list]. repeat split.
  - exact Hpx.
  - now apply calc_shares_ok.
  - apply get_encrypted_shares_ok. lia.
  - unfold len, zip. rewrite length_map, length_combine. lia.
  - apply get_X_i_list_ok. discriminate.
Qed.

Lemma honest_bundle_verifies (h : EcPt) (px : list Z) (n : Z) (pub_keys : list EcPt)
  (ws : list Z) :
  px <> [] -> 0 <= n -> length pub_keys = Z.to_nat n -> length ws = Z.to_nat n ->
  let shares := map (share_at px order) (range 1 (n + 1)) in
  let enc := map (fun '(y, sh) => pt_mul sh y) (zip pub_keys shares) in
  let X := map (fun sh => pt_mul sh h) shares in
  DLEQ_verify_list order h pub_keys (get_commitments h px) enc
    (honest_proof order h X enc pub_keys shares ws) = Ok true.
Proof.
  intros Hne Hn Hpk Hws shares enc X.
  unfold DLEQ_verify_list, honest_proof. cbn [c r_list a_1_list a_2_list].
  assert (Hshares : length shares = Z.to_nat n)
    by (unfold shares; rewrite length_map, range_length; lia).
  set (c0 := hash order (PList X) (PList enc) (PList (map (fun w => pt_mul w h) ws))
               (PList (map (fun '(w, y) => pt_mul w y) (zip ws pub_keys)))).
  assert (Hr : len (__DLEQ_calc_all_r order shares ws c0) = n).
  { unfold __DLEQ_calc_all_r, len, zip. rewrite length_map, length_combine. lia. }
  rewrite Hr, get_X_i_list_ok by assumption.
  fold shares. fold X. cbn [bindR]. fold c0.
  rewrite Z.eqb_refl. cbn [negb].
  f_equal. apply DLEQ_verify_list_loop_honest.
Qed.

(** X24: every bundle and proof the dealer returns passes
    [DLEQ_verify_list], for every input and every random draw. *)
Theorem gen_proof_verifies (g0 h : EcPt) (k n secret : Z) (pub_keys : list EcPt)
  (s s' : rng) (pub : public) (prf : proof) :
  gen_proof (order, g0, h) k n secret pub_keys s = Ok (pub, prf, s') ->
  DLEQ_verify_list order h pub_keys pub.(C_list) pub.(Y_list) prf = Ok true.
Proof.
  intros Hrun.
  destruct (gen_proof_ok_explicit _ _ _ _ _ _ _ _ _ _ Hrun)
    as (Hk & Hkn & Hpk & Hpx & _ & -> & ->).
  cbn [C_list Y_list].
  apply honest_bundle_verifies.
  - discriminate.
  - lia.
  - unfold len in Hpk. lia.
  - rewrite draws_length. unfold zip.
    rewrite length_map, length_combine, length_map, range_length.
    unfold len in Hpk. lia.
Qed.

(** X25: the scheme end to end: when the dealer returns a bundle for
    the public keys of the participants' private keys, and [k] or more
    participants with distinct indices each decrypt their own encrypted
    share, [decode] applied to the decrypted shares returns the secret
    multiplied into the generator. *)
Theorem dealer_to_reconstruction (g0 h : EcPt) (k n m : Z) (priv_keys : list Z)
  (s s' : rng) (pub : public) (prf : proof)
  (index_list : list Z) (S_list : list EcPt) :
  n < order ->
  gen_proof (order, g0, h) k n m
    (map (fun x_i => get_pub_key (order, g0, h) x_i) priv_keys) s = Ok (pub, prf, s') ->
  NoDup index_list -> k <= len index_list ->
  (forall i, In i index_list -> 1 <= i <= n) ->
  Forall2 (fun i S_i => exists x_i Y_i,
             getitem priv_keys (i - 1) = Ok x_i /\
             getitem pub.(Y_list) (i - 1) = Ok Y_i /\
             participant_decrypt (order, g0, h) x_i Y_i = Ok S_i)
          index_list S_list ->
  decode S_list index_list order = Ok (pt_mul m g0).
Proof.
  intros Hnp Hrun Hnd Hlen Hrange HS.
  destruct (gen_proof_ok_explicit _ _ _ _ _ _ _ _ _ _ Hrun)
    as (Hk & Hkn & Hpk & Hpx & _ & -> & _).
  set (px := m :: draws (Z.to_nat (k - 1)) order s) in *.
  cbn [Y_list] in HS.
  assert (HSl : S_list = map (fun i => pt_mul (share_at px order i) g0) index_list).
  { clear Hnd Hlen.
    induction HS as [|i S_i il Sl (x_i & Y_i & Hx & HY & Hdec) _ IH]; [reflexivity|].
    cbn [map]. f_equal.
    - assert (Hi : 1 <= i <= n) by (apply Hrange; now left).
      apply getitem_nth_inv in Hx, HY; try lia.
      apply nth_error_map_some in HY. destruct HY as ([y sh] & Hzip & <-).
      apply nth_error_combine in Hzip. destruct Hzip as [Hy Hsh'].
      apply nth_error_map_some in Hy. destruct Hy as (x' & Hx' & <-).
      rewrite Hx in Hx'. injection Hx' as <-.
      rewrite nth_error_map, nth_error_range in Hsh' by lia.
      cbn [option_map] in Hsh'.
      replace (1 + Z.of_nat (Z.to_nat (i - 1))) with i in Hsh' by lia.
      injection Hsh' as <-.
      unfold get_pub_key in Hdec.
      assert (Hg : Z.gcd x_i order = 1).
      { unfold participant_decrypt in Hdec.
        destruct (mod_inverse x_i order) as [inv|e] eqn:Hinv; [|discriminate].
        now apply mod_inverse_ok_coprime in Hinv. }
      rewrite (decrypt_pub_key_mul g0 h x_i _ Hg) in Hdec.
      injection Hdec as <-. reflexivity.
    - apply IH. intros j Hj. apply Hrange. now right. }
  subst S_list.
  rewrite decode_honest.
  - unfold px. cbn [horner]. now rewrite Z.mul_0_l, Z.add_0_r.
  - unfold len in *. lia.
  - intros ->. change (len (@nil Z)) with 0 in Hlen. lia.
  - eapply distinct_small; eassumption.
Qed.

End Dealer_output.

(** * The reference instances *)

Lemma prime_13 : Z.prime 13.
Proof.
  split; [lia|]. intros n Hn [k Hk].
  assert (Hc : n = 2 \/ n = 3 \/ n = 4 \/ n = 5 \/ n = 6 \/ n = 7 \/ n = 8
               \/ n = 9 \/ n = 10 \/ n = 11 \/ n = 12) by lia.
  repeat (destruct Hc as [->|Hc]; [lia|]). subst n. lia.
Qed.

Lemma z13_add_assoc (a b c0 : Z13.pt) :
  Z13.add a (Z13.add b c0) = Z13.add (Z13.add a b) c0.
Proof.
  apply Zmod.unsigned_inj. unfold Z13.add. rewrite !Zmod.unsigned_add.
  rewrite Zplus_mod_idemp_r, Zplus_mod_idemp_l. f_equal. ring.
Qed.

Lemma z13_mul_add (x y : Z) (g : Z13.pt) :
  Z13.mul (x + y) g = Z13.add (Z13.mul x g) (Z13.mul y g).
Proof.
  apply Zmod.unsigned_inj. unfold Z13.add, Z13.mul.
  rewrite Zmod.unsigned_add, !Zmod.unsigned_of_Z.
  rewrite <- Z.add_mod by (unfold Z13.q; lia). f_equal. ring.
Qed.

Lemma z13_mul_mul (x y : Z) (g : Z13.pt) :
  Z13.mul (x * y) g = Z13.mul x (Z13.mul y g).
Proof.
  apply Zmod.unsigned_inj. unfold Z13.mul. rewrite !Zmod.unsigned_of_Z.
  rewrite Z.mul_mod_idemp_r by (unfold Z13.q; lia). f_equal. ring.
Qed.

Lemma z13_mul_1 (g : Z13.pt) : Z13.mul 1 g = g.
Proof. unfold Z13.mul. rewrite Z.mul_1_l. apply Zmod.of_Z_unsigned. Qed.

Lemma z13_mul_order (x : Z) (g : Z13.pt) : Z13.mul (x mod 13) g = Z13.mul x g.
Proof.
  apply Zmod.unsigned_inj. unfold Z13.mul. rewrite !Zmod.unsigned_of_Z.
  change Z13.q with 13. now rewrite Z.mul_mod_idemp_l by lia.
Qed.

#[export] Instance z13_group : EcGroup := {|
  EcPt := Z13.pt;
  order := 13;
  pt_add := Z13.add;
  pt_mul := Z13.mul;
  pt_eqb := Z13.eqb;
  encode := Z13.encode;
  order_prime := prime_13;
  pt_add_assoc := z13_add_assoc;
  pt_mul_add := z13_mul_add;
  pt_mul_mul := z13_mul_mul;
  pt_mul_1 := z13_mul_1;
  pt_mul_order := z13_mul_order;
  pt_eqb_eq := @Zmod.eqb_eq Z13.q
|}.

Lemma sha256_digest_length (m : list byte) : length (SHA256.digest m) = 32%nat.
Proof.
  unfold SHA256.digest.
  destruct (SHA256.blocks _ _ _) as [[[[[[[a b] c0] d] e] f] g] h].
  reflexivity.
Qed.

(** The digest of the three bytes of "abc", as FIPS 180-4 lists it. *)
Example sha256_abc :
  from_binary (SHA256.digest [x61; x62; x63])
  = 0xba7816bf8f01cfea414140de5dae2223b00361a396177a9cb410ff61f20015ad.
Proof. vm_compute. reflexivity. Qed.

#[export] Instance sha256_digest : Digest := {|
  sha256 := SHA256.digest;
  sha256_length := sha256_digest_length
|}.

(** ** The scheme on the reference instances *)



(** C2, witness: the commitments of [5 + 4 x + 11 x^2] evaluated at 2. *)
Lemma commitment_homomorphism_witness :
  exists share : Z,
    __calc_share [5; 4; 11] 3 2 13 = Ok share /\
    __get_X_i (Gq := z13_group) (get_commitments Z13.H [5; 4; 11]) 2 = Ok (Z13.mul share Z13.H).
Proof.
  apply (commitment_homomorphism (Gq := z13_group) [5; 4; 11] 3 2 Z13.H).
  - lia.
  - reflexivity.
Defined.

(** C3, witness: a (3, 4) sharing of the secret 5. *)
Lemma batch_completeness_witness :
  exists (pub : public) (prf : proof) (s' : rng),
    gen_proof (Gq := z13_group) (13, Z13.G, Z13.H) 3 4 5 Z13.pub_keys Z13.tape = Ok (pub, prf, s') /\
    DLEQ_verify_list (Gq := z13_group) 13 Z13.H Z13.pub_keys pub.(C_list) pub.(Y_list) prf = Ok true.
Proof.
  apply (proj1 (batch_completeness (Gq := z13_group) (Hsh := sha256_digest)
                  Z13.G Z13.H 3 4 5 Z13.pub_keys Z13.tape
                  (fun i => Z13.tape (S (S i))) [5; 4; 11]
                  ltac:(lia) ltac:(lia) eq_refl eq_refl)).
  vm_compute. discriminate.
Defined.

(** C3, counterexample: with threshold 1 of 2 participants the
    polynomial is the constant one, the first share is the secret, and
    the dealer stops on its own assertion instead of returning a bundle. *)
Lemma gen_proof_threshold_one :
  len [Z13.mul 4 Z13.G; Z13.mul 6 Z13.G] = 2 /\
  __calc_share [3] 1 1 13 = Ok 3 /\
  gen_proof (Gq := z13_group) (13, Z13.G, Z13.H) 1 2 3
    [Z13.mul 4 Z13.G; Z13.mul 6 Z13.G] Z13.tape
  = Raise AssertionError.
Proof. repeat split; vm_compute; reflexivity. Qed.

(** C4, witness: the participant with private key 4 decrypts the
    encrypted share [8 * (4 * G)]. *)
Lemma decryption_completeness_witness :
  exists (S_i : Z13.pt) (decrypt_proof : single_proof) (s' : rng),
    participant_decrypt_and_prove (Gq := z13_group) (13, Z13.G, Z13.H) 4 (Z13.mul 8 (Z13.mul 4 Z13.G)) Z13.tape
    = Ok (S_i, decrypt_proof, s') /\
    verify_correct_decryption (Gq := z13_group) S_i (Z13.mul 8 (Z13.mul 4 Z13.G)) decrypt_proof
      (Z13.mul 4 Z13.G) 13 Z13.G = true.
Proof.
  apply (decryption_completeness (Gq := z13_group) (Hsh := sha256_digest)
           Z13.G Z13.H (Z13.mul 8 (Z13.mul 4 Z13.G)) 4 Z13.tape).
  reflexivity.
Defined.

(** C5, counterexample: for the group of order 13 the challenge is a
    256-bit number far above the order. *)
Lemma hash_exceeds_order :
  hash (Gq := z13_group) 13 (PPt Z13.G) (PPt Z13.G) (PPt Z13.H) (PPt Z13.H)
  = 95454430331516896118735303315189888829440606696775430853495290976516677644107 /\
  13 <= hash (Gq := z13_group) 13 (PPt Z13.G) (PPt Z13.G) (PPt Z13.H) (PPt Z13.H).
Proof. split; vm_compute; [reflexivity|discriminate]. Qed.

(** C6, witness: threshold 3 and secret 5 with the modulus 13: the
    draws 4 and 11 follow the secret, and the stream goes on from its
    third draw. *)
Lemma gen_polynomial_shape_witness :
  gen_polynomial 3 5 13 Z13.tape = Ok ([5; 4; 11], shift 2 Z13.tape) /\
  (forall i, shift 2 Z13.tape i = Z13.tape (2 + i)%nat) /\
  len [5; 4; 11] = 3.
Proof.
  pose proof (gen_polynomial_shape 3 5 13 Z13.tape ltac:(lia)) as Hs.
  cbv zeta in Hs. destruct Hs as (Hrun & _ & _ & Hsh & _ & Hlen & _).
  split; [exact Hrun|]. split; [exact Hsh|]. apply Hlen. lia.
Defined.

(** C8, witness: the coefficient of index 1 among the indices 1, 2, 3. *)
Lemma lagrange_coefficient_witness :
  __lagrange 1 [1; 2; 3] 13 = Ok (lagrange_spec 1 [1; 2; 3] 13).
Proof.
  apply (proj1 (lagrange_coefficient 1 [1; 2; 3] 13 prime_13)).
  intros j [<-|[<-|[<-|[]]]] Hj; vm_compute; congruence.
Defined.

(** ** Further properties on the reference instances *)

(** X1, witness: [5 + 4 x + 11 x^2] at 2 is 57, which is 5 modulo 13. *)
Lemma calc_share_value_witness :
  __calc_share [5; 4; 11] 3 2 13 = Ok 5 /\ 0 <= 5 < 13.
Proof.
  exact (proj1 (calc_share_value [5; 4; 11] 3 2 13 ltac:(lia)) eq_refl).
Defined.

(** X2, witness: the four shares of [5 + 4 x + 11 x^2] modulo 13, and
    the same call with the declared length 2. *)
Lemma calc_shares_shape_witness :
  calc_shares [5; 4; 11] 3 4 13 = Ok [7; 5; 12; 2] /\
  calc_shares [5; 4; 11] 2 4 13 = Raise AssertionError.
Proof.
  destruct (calc_shares_shape [5; 4; 11] 3 4 13 ltac:(lia)) as (Hok & _ & _).
  destruct (calc_shares_shape [5; 4; 11] 2 4 13 ltac:(lia)) as (_ & Hbad & _).
  split; [exact (proj1 (Hok eq_refl))|].
  apply Hbad; [vm_compute; discriminate|lia].
Defined.

(** X5, witness: the private key 4 decrypts the share 8 encrypted under
    its public key. *)
Lemma decrypt_encrypted_share_witness :
  participant_decrypt (Gq := z13_group) (13, Z13.G, Z13.H) 4
    (Z13.mul 8 (get_pub_key (Gq := z13_group) (13, Z13.G, Z13.H) 4))
  = Ok (Z13.mul 8 Z13.G).
Proof.
  apply (decrypt_encrypted_share (Gq := z13_group) Z13.G Z13.H 4 8).
  reflexivity.
Defined.

(** X7, witness: the first draw of the stream is 4. *)
Lemma key_pair_spec_witness :
  0 <= 4 < 13 /\
  participant_decrypt (Gq := z13_group) (13, Z13.G, Z13.H) 4
    (Z13.mul 8 (Z13.mul 4 Z13.G)) = Ok (Z13.mul 8 Z13.G).
Proof.
  destruct (key_pair_spec (Gq := z13_group) Z13.G Z13.H Z13.tape
              (fun i => Z13.tape (S i)) 4 (Z13.mul 4 Z13.G) eq_refl)
    as (Hr & _ & Hd & _).
  split; [exact Hr|]. apply Hd. discriminate.
Defined.

(** X11, witness: two participants, with private keys 4 and 6. *)
Lemma batch_decryption_completeness_witness :
  exists proved_decryptions : list (Z13.pt * single_proof),
    batch_verify_correct_decryption (Gq := z13_group) (Hsh := sha256_digest)
      proved_decryptions
      [Z13.mul 8 (Z13.mul 4 Z13.G); Z13.mul 3 (Z13.mul 6 Z13.G)]
      [Z13.mul 4 Z13.G; Z13.mul 6 Z13.G] 13 Z13.G = true.
Proof.
  eexists.
  apply (batch_decryption_completeness (Gq := z13_group) (Hsh := sha256_digest)
           Z13.G Z13.H
           [(4, Z13.mul 8 (Z13.mul 4 Z13.G), Z13.tape);
            (6, Z13.mul 3 (Z13.mul 6 Z13.G), Z13.tape)]).
  apply Forall2_cons; [eexists; vm_compute; reflexivity|].
  apply Forall2_cons; [eexists; vm_compute; reflexivity|].
  apply Forall2_nil.
Defined.

(** X13, witness: one commitment [5 * H], the participant with private
    key 4, its encrypted share [5 * (4 * G)], and the proof the prover
    builds for the share 5 from the draw 4: the recomputed [X_list] is
    [[5 * H]] and the proof is accepted. *)
Lemma DLEQ_verify_list_spec_witness :
  [Z13.mul 5 Z13.H] <> [] /\
  get_X_i_list (Gq := z13_group) [Z13.mul 5 Z13.H] 1 = Ok [Z13.mul 5 Z13.H] /\
  DLEQ_verify_list (Gq := z13_group) (Hsh := sha256_digest) 13 Z13.H
    [Z13.mul 4 Z13.G] [Z13.mul 5 Z13.H] [Z13.mul 5 (Z13.mul 4 Z13.G)]
    {| c := 47454057689671013131475511268959026021357760323545160888424408647049467516867;
       r_list := [6];
       a_1_list := [Z13.mul 4 Z13.H];
       a_2_list := [Z13.mul 4 (Z13.mul 4 Z13.G)] |}
  = Ok true.
Proof.
  assert (Hne : [Z13.mul 5 Z13.H] <> []) by discriminate.
  destruct (DLEQ_verify_list_spec (Gq := z13_group) (Hsh := sha256_digest)
              13 Z13.H [Z13.mul 4 Z13.G] [Z13.mul 5 Z13.H]
              [Z13.mul 5 (Z13.mul 4 Z13.G)]
              (@Build_proof z13_group
                 47454057689671013131475511268959026021357760323545160888424408647049467516867
                 [6] [Z13.mul 4 Z13.H] [Z13.mul 4 (Z13.mul 4 Z13.G)])
              Hne)
    as (X_list & verdict & HX & Hv & Hiff).
  assert (HX' : Ok [Z13.mul 5 Z13.H] = Ok X_list) by exact HX.
  injection HX' as <-.
  split; [exact Hne|]. split; [exact HX|].
  rewrite Hv. f_equal. apply Hiff. cbn [c r_list a_1_list a_2_list]. split.
  - vm_compute. reflexivity.
  - intros g_2 h_1 h_2 r_i a_1 a_2 Hin.
    cbn [zip combine In] in Hin.
    destruct Hin as [[= <- <- <- <- <- <-]|[]].
    split; vm_compute; reflexivity.
Defined.

(** X14, witness: no commitment and one response. *)
Lemma DLEQ_verify_list_no_commitments_witness :
  DLEQ_verify_list (Gq := z13_group) (Hsh := sha256_digest) 13 Z13.H [] [] []
    {| c := 0; r_list := [1]; a_1_list := []; a_2_list := [] |} = Raise IndexError.
Proof.
  apply (DLEQ_verify_list_no_commitments (Gq := z13_group) (Hsh := sha256_digest)).
  discriminate.
Defined.

(** X17, witness: one commitment, one participant, one share. *)
Lemma DLEQ_prove_list_shape_witness :
  exists prf : proof,
    DLEQ_prove_list (Gq := z13_group) (Hsh := sha256_digest) 13 Z13.H [Z13.H]
      [Z13.mul 3 Z13.G] [Z13.G] [3] Z13.tape = Ok (prf, shift 1 Z13.tape) /\
    len prf.(r_list) = 1.
Proof.
  destruct (DLEQ_prove_list_shape (Gq := z13_group) (Hsh := sha256_digest)
              13 Z13.H [Z13.H] [Z13.mul 3 Z13.G] [Z13.G] [3] Z13.tape
              ltac:(discriminate) eq_refl eq_refl)
    as (prf & Hrun & _ & _ & Hr & _).
  exists prf. split; [exact Hrun|exact Hr].
Defined.

(** X19, witness: the indices 1 and 14 are congruent modulo 13. *)
Lemma decode_fails_iff_witness :
  decode (Gq := z13_group) [Z13.G; Z13.G] [1; 14] 13 = Raise NoInverse.
Proof.
  apply (proj1 (decode_fails_iff (Gq := z13_group) [Z13.G; Z13.G] [1; 14] 13
                  prime_13 eq_refl ltac:(discriminate))).
  exists 1, 14. repeat split; simpl; auto. discriminate.
Defined.

(** X20, witness: all three shares of a threshold-2 sharing of 5. *)
Lemma reconstruction_from_more_shares_witness :
  decode (Gq := z13_group) [Z13.mul 8 Z13.G; Z13.mul 11 Z13.G; Z13.mul 1 Z13.G]
    [1; 2; 3] 13 = Ok (Z13.mul 5 Z13.G).
Proof.
  apply (reconstruction_from_more_shares (Gq := z13_group) Z13.G 2 3 5
           (fun _ => 3) (fun _ => 3) [5; 3] [8; 11; 1] [1; 2; 3]).
  - lia.
  - lia.
  - simpl. lia.
  - reflexivity.
  - reflexivity.
  - repeat constructor; simpl; intuition lia.
  - unfold len. cbn [length]. lia.
  - intros i [<-|[<-|[<-|[]]]]; lia.
  - repeat constructor; eexists; split; reflexivity.
Defined.

(** X21, witness: the coefficients of the indices 1, 2, 3 modulo 13. *)
Lemma lagrange_sum_one_witness :
  exists coefficients,
    mapR (fun i => __lagrange i [1; 2; 3] 13) [1; 2; 3] = Ok coefficients /\
    Forall (fun co => 0 <= co < 13) coefficients /\
    fold_right Z.add 0 coefficients mod 13 = 1.
Proof.
  apply (lagrange_sum_one [1; 2; 3] 13 prime_13).
  - discriminate.
  - unfold distinct_mod. repeat constructor; simpl; intuition discriminate.
Defined.

(** X22, witness: a (3, 4) sharing of 5 whose first share is 7. *)
Lemma gen_proof_returns_iff_witness :
  exists out,
    gen_proof (Gq := z13_group) (Hsh := sha256_digest) (13, Z13.G, Z13.H) 3 4 5
      Z13.pub_keys Z13.tape = Ok out.
Proof.
  apply (proj1 (gen_proof_returns_iff (Gq := z13_group) (Hsh := sha256_digest)
                  Z13.G Z13.H 3 4 5 Z13.pub_keys Z13.tape
                  (fun i => Z13.tape (S (S i))) [5; 4; 11] eq_refl)).
  repeat split; try lia; try reflexivity.
  vm_compute. discriminate.
Defined.

Lemma z13_dealer_2_3 :
  exists (pub : public) (prf : proof) (s' : rng),
    gen_proof (Gq := z13_group) (Hsh := sha256_digest) (13, Z13.G, Z13.H) 2 3 5
      (firstn 3 Z13.pub_keys) Z13.tape = Ok (pub, prf, s').
Proof.
  pose proof (gen_proof_run (Gq := z13_group) (Hsh := sha256_digest)
                Z13.G Z13.H 2 3 5 (firstn 3 Z13.pub_keys) Z13.tape
                (fun i => Z13.tape (S i)) [5; 4]
                ltac:(lia) ltac:(lia) eq_refl eq_refl) as Hrun.
  cbv zeta in Hrun.
  change (share_at [5; 4] order 1 =? 5) with false in Hrun.
  do 3 eexists. exact Hrun.
Qed.

Lemma z13_dealer_3_4 :
  exists (pub : public) (prf : proof) (s' : rng),
    gen_proof (Gq := z13_group) (Hsh := sha256_digest) (13, Z13.G, Z13.H) 3 4 5
      (map (fun x_i => get_pub_key (Gq := z13_group) (13, Z13.G, Z13.H) x_i)
           Z13.priv_keys)
      Z13.tape = Ok (pub, prf, s') /\
    pub.(Y_list) = [Z13.mul 7 (Z13.mul 4 Z13.G); Z13.mul 5 (Z13.mul 6 Z13.G);
                    Z13.mul 12 (Z13.mul 9 Z13.G); Z13.mul 2 (Z13.mul 11 Z13.G)].
Proof.
  pose proof (gen_proof_run (Gq := z13_group) (Hsh := sha256_digest)
                Z13.G Z13.H 3 4 5
                (map (fun x_i => get_pub_key (Gq := z13_group) (13, Z13.G, Z13.H) x_i)
                     Z13.priv_keys)
                Z13.tape (fun i => Z13.tape (S (S i))) [5; 4; 11]
                ltac:(lia) ltac:(lia) eq_refl eq_refl) as Hrun.
  cbv zeta in Hrun.
  change (share_at [5; 4; 11] order 1 =? 5) with false in Hrun.
  do 3 eexists. split; [exact Hrun|].
  cbn [Y_list]. vm_compute. reflexivity.
Qed.

(** X23, witness: the bundle of a (2, 3) sharing of 5. *)
Lemma gen_proof_bundle_witness :
  exists (pub : public) (prf : proof) (s' : rng) (shares : list Z),
    gen_proof (Gq := z13_group) (Hsh := sha256_digest) (13, Z13.G, Z13.H) 2 3 5
      (firstn 3 Z13.pub_keys) Z13.tape = Ok (pub, prf, s') /\
    len pub.(Y_list) = 3 /\
    get_X_i_list pub.(C_list) 3 = Ok (map (fun share_i => Z13.mul share_i Z13.H) shares).
Proof.
  destruct z13_dealer_2_3 as (pub & prf & s' & Hrun).
  destruct (gen_proof_bundle (Gq := z13_group) (Hsh := sha256_digest)
              _ _ _ _ _ _ _ _ _ _ Hrun)
    as (px_rand & shares & _ & _ & _ & _ & HY & HX).
  exists pub, prf, s', shares. repeat split; assumption.
Defined.

(** X24, witness: the same (2, 3) sharing verifies. *)
Lemma gen_proof_verifies_witness :
  exists (pub : public) (prf : proof) (s' : rng),
    gen_proof (Gq := z13_group) (Hsh := sha256_digest) (13, Z13.G, Z13.H) 2 3 5
      (firstn 3 Z13.pub_keys) Z13.tape = Ok (pub, prf, s') /\
    DLEQ_verify_list (Gq := z13_group) 13 Z13.H (firstn 3 Z13.pub_keys)
      pub.(C_list) pub.(Y_list) prf = Ok true.
Proof.
  destruct z13_dealer_2_3 as (pub & prf & s' & Hrun).
  exists pub, prf, s'. split; [exact Hrun|].
  exact (gen_proof_verifies (Gq := z13_group) (Hsh := sha256_digest)
           _ _ _ _ _ _ _ _ _ _ Hrun).
Defined.

(** X25, witness: the (3, 4) sharing of 5 among the private keys 4, 6,
    9, 11, reconstructed by the participants 1, 2 and 4. *)
Lemma dealer_to_reconstruction_witness :
  decode (Gq := z13_group) [Z13.mul 7 Z13.G; Z13.mul 5 Z13.G; Z13.mul 2 Z13.G]
    [1; 2; 4] 13 = Ok (Z13.mul 5 Z13.G).
Proof.
  destruct z13_dealer_3_4 as (pub & prf & s' & Hrun & HY).
  apply (dealer_to_reconstruction (Gq := z13_group) (Hsh := sha256_digest)
           Z13.G Z13.H 3 4 5 Z13.priv_keys Z13.tape s' pub prf).
  - simpl. lia.
  - exact Hrun.
  - repeat constructor; simpl; intuition lia.
  - unfold len. cbn [length]. lia.
  - intros i [<-|[<-|[<-|[]]]]; lia.
  - rewrite HY.
    apply Forall2_cons;
      [do 2 eexists; (split; [reflexivity|split; vm_compute; reflexivity])|].
    apply Forall2_cons;
      [do 2 eexists; (split; [reflexivity|split; vm_compute; reflexivity])|].
    apply Forall2_cons;
      [do 2 eexists; (split; [reflexivity|split; vm_compute; reflexivity])|].
    apply Forall2_nil.
Defined.
